(** * NAnPack hyperbolic solvers: a shallow embedding of
      [nanpack/hyperbolicsolvers.py] and the properties of its schemes.

    The Python functions are written in a state-and-exception monad over a
    store of numpy arrays.  Array values are IEEE binary64 (Rocq's primitive
    floats), so every scheme can be evaluated on concrete states. *)

From Stdlib Require Import ZArith List String Ascii PrimFloat Lia.
From stdpp Require Import base list.
Import ListNotations.

Set Warnings "-register-all".

(* ================================================================== *)
(** * 1. Array values                                                  *)
(* ================================================================== *)

(** A numpy value: a scalar, or an array given by its rows along axis 0
    together with the shape [inner] of each row.  A state vector of [N]
    nodes is [Array [] [Scalar u0; ...; Scalar u(N-1)]]; Python floats
    such as [Courant] are scalars. *)
Inductive ndarray :=
| Scalar (x : float)
| Array (inner : list nat) (rows : list ndarray).

Coercion Scalar : float >-> ndarray.

(** [Uo.shape] *)
Definition shape (a : ndarray) : list nat :=
  match a with
  | Scalar _ => []
  | Array inner rows => length rows :: inner
  end.

(** The rows of an array along axis 0 (none for a scalar). *)
Definition rows_of (a : ndarray) : list ndarray :=
  match a with
  | Scalar _ => []
  | Array _ rows => rows
  end.

(** A one-dimensional state vector built from its node values. *)
Definition vec (xs : list float) : ndarray := Array [] (map Scalar xs).

(** Induction on array values, with the rows of an array as premises. *)
Fixpoint ndarray_rows_ind (P : ndarray -> Prop)
  (Hs : forall x, P (Scalar x))
  (Ha : forall inner rows, Forall P rows -> P (Array inner rows))
  (a : ndarray) : P a :=
  match a with
  | Scalar x => Hs x
  | Array inner rows =>
      Ha inner rows
        ((fix go (rs : list ndarray) : Forall P rs :=
            match rs with
            | [] => @List.Forall_nil _ P
            | r :: rs' =>
                @List.Forall_cons _ P r rs' (ndarray_rows_ind P Hs Ha r)
                  (go rs')
            end) rows)
  end.

(** Element-wise application of a unary function. *)
Fixpoint nd_map (f : float -> float) (a : ndarray) : ndarray :=
  match a with
  | Scalar x => Scalar (f x)
  | Array inner rows => Array inner (map (nd_map f) rows)
  end.

(** Element-wise binary operation.  A scalar operand is broadcast; two
    arrays are combined row by row.  The array/array operations of the
    module combine the windows [1:-1], [2:] and [0:-2] of the state and
    of its copies, which hold the same number of rows ([window_lengths]
    below), or single rows of them, so numpy's general broadcasting and
    its shape-mismatch error do not come into play. *)
Fixpoint bop (f : float -> float -> float) (a b : ndarray) {struct a}
  : ndarray :=
  match a, b with
  | Scalar x, _ => nd_map (f x) b
  | Array _ _, Scalar y => nd_map (fun x => f x y) a
  | Array inner xs, Array _ ys => Array inner (zip_with (bop f) xs ys)
  end.

(** Does a divisor hold a zero?  (IEEE comparison: both zeros count.) *)
Fixpoint has_zero (a : ndarray) : bool :=
  match a with
  | Scalar x => PrimFloat.eqb x 0
  | Array _ rows => existsb has_zero rows
  end.

(** [np.sign] on a float. *)
Definition sign (x : float) : float :=
  if PrimFloat.ltb 0 x then 1%float
  else if PrimFloat.ltb x 0 then (-1)%float
  else if PrimFloat.eqb x 0 then 0%float
  else x.

Declare Scope nd_scope.
Delimit Scope nd_scope with nd.
Bind Scope nd_scope with ndarray.
Notation "# x" := (Scalar x%float) (at level 1, format "# x") : nd_scope.
Infix "+" := (bop PrimFloat.add) : nd_scope.
Infix "-" := (bop PrimFloat.sub) : nd_scope.
Infix "*" := (bop PrimFloat.mul) : nd_scope.
Infix "/" := (bop PrimFloat.div) : nd_scope.
Notation "- a" := (nd_map PrimFloat.opp a) : nd_scope.

(* ------------------------------------------------------------------ *)
(** ** Python indexing                                                 *)
(* ------------------------------------------------------------------ *)

(** A slice bound clamped to [0..n] as [slice.indices] does for step 1:
    a negative bound counts from the end. *)
Definition clamp (n : nat) (i : Z) : nat :=
  if (i <? 0)%Z then Z.to_nat (Z.max (i + Z.of_nat n) 0)
  else Z.to_nat (Z.min i (Z.of_nat n)).

(** The rows [lo, hi) selected by [start:stop] in a sequence of [n] rows;
    an absent bound is [None].  [hi] is never below [lo]. *)
Definition window (n : nat) (start stop : option Z) : nat * nat :=
  let lo := from_option (clamp n) 0%nat start in
  let hi := from_option (clamp n) n stop in
  (lo, Nat.max lo hi).

(** Outcomes: Python's exceptions, as far as the module can raise them.
    [BadReference] stands for a name bound to no array; no Python program
    can produce it, the model returns it for a location outside the store. *)
Inductive exn :=
| Exception (msg : string)
| TypeError (msg : string)
| NameError (name : string)
| IndexError (msg : string)
| ValueError (msg : string)
| ZeroDivisionError
| BadReference.

Inductive result (A : Type) :=
| Ok (a : A)
| Err (e : exn).
Arguments Ok {A} a.
Arguments Err {A} e.

Definition is_ok {A} (r : result A) : bool :=
  match r with Ok _ => true | Err _ => false end.

(** [a[start:stop]]: a window of rows; a scalar cannot be indexed. *)
Definition getslice (a : ndarray) (start stop : option Z) : result ndarray :=
  match a with
  | Scalar _ => Err (IndexError "too many indices for array")
  | Array inner rows =>
      let '(lo, hi) := window (length rows) start stop in
      Ok (Array inner (take (hi - lo) (drop lo rows)))
  end.

(** [a[start:stop] = v]: the window of [a] is overwritten by the rows of
    [v], which must be as many as the window holds. *)
Definition setslice (a : ndarray) (start stop : option Z) (v : ndarray)
  : result ndarray :=
  match a with
  | Scalar _ => Err (IndexError "too many indices for array")
  | Array inner rows =>
      let '(lo, hi) := window (length rows) start stop in
      if (length (rows_of v) =? hi - lo)%nat
      then Ok (Array inner (take lo rows ++ rows_of v ++ drop hi rows))
      else Err (ValueError "could not broadcast input array")
  end.

(** The position an integer index denotes in a sequence of [n] rows. *)
Definition index (n : nat) (i : Z) : option nat :=
  if ((0 <=? i) && (i <? Z.of_nat n))%Z then Some (Z.to_nat i)
  else if ((- Z.of_nat n <=? i) && (i <? 0))%Z
       then Some (Z.to_nat (i + Z.of_nat n))
       else None.

(** [a[i]] *)
Definition getitem (a : ndarray) (i : Z) : result ndarray :=
  match a with
  | Scalar _ => Err (IndexError "too many indices for array")
  | Array _ rows =>
      match index (length rows) i with
      | Some k =>
          match rows !! k with
          | Some r => Ok r
          | None => Err (IndexError "index out of bounds")
          end
      | None => Err (IndexError "index out of bounds")
      end
  end.

(** [a[i] = v] *)
Definition setitem (a : ndarray) (i : Z) (v : ndarray) : result ndarray :=
  match a with
  | Scalar _ => Err (IndexError "too many indices for array")
  | Array inner rows =>
      match index (length rows) i with
      | Some k => Ok (Array inner (<[k := v]> rows))
      | None => Err (IndexError "index out of bounds")
      end
  end.

(** The three windows every stencil of the module is written with. *)
Definition mid (a : ndarray) := getslice a (Some 1%Z) (Some (-1)%Z).
Definition fwd (a : ndarray) := getslice a (Some 2%Z) None.
Definition bwd (a : ndarray) := getslice a (Some 0%Z) (Some (-2)%Z).

(** The truth value of [x == 0] in an [if]: defined for a value of one
    element only. *)
Fixpoint is_zero (x : ndarray) : result bool :=
  match x with
  | Scalar y => Ok (PrimFloat.eqb y 0)
  | Array _ [r] => is_zero r
  | Array _ _ => Err (ValueError "the truth value of an array is ambiguous")
  end.

(* ================================================================== *)
(** * 2. The store and the monad of the schemes                        *)
(* ================================================================== *)

(** Locations of the store. *)
Abbreviation loc := nat.

(** numpy's [RuntimeWarning] for a division whose divisor holds a zero. *)
Inductive warning := DivideByZero.

(** The store holds the arrays that exist, each under its location, and
    the warnings issued so far.  [Uo.copy()] adds a location; a subscript
    assignment overwrites the array under an existing one. *)
Record world := World { heap : list ndarray; warns : list warning }.

Definition M (A : Type) : Type := world -> result A * world.

Definition ret {A} (a : A) : M A := fun w => (Ok a, w).

Definition raise {A} (e : exn) : M A := fun w => (Err e, w).

Definition bind {A B} (m : M A) (k : A -> M B) : M B :=
  fun w => match m w with
           | (Ok a, w') => k a w'
           | (Err e, w') => (Err e, w')
           end.

#[global] Instance M_ret : MRet M := @ret.
#[global] Instance M_bind : MBind M := fun A B k m => bind m k.

Definition lift {A} (r : result A) : M A := fun w => (r, w).

(** The array a name refers to. *)
Definition deref (l : loc) : M ndarray :=
  fun w => match heap w !! l with
           | Some a => (Ok a, w)
           | None => (Err BadReference, w)
           end.

(** A new array object. *)
Definition alloc (a : ndarray) : M loc :=
  fun w => (Ok (length (heap w)), World (heap w ++ [a]) (warns w)).

(** In-place update of the array under [l]. *)
Definition assign (l : loc) (a : ndarray) : M unit :=
  fun w => (Ok tt, World (<[l := a]> (heap w)) (warns w)).

Definition np_shape (l : loc) : M (list nat) :=
  a ← deref l; mret (shape a).

Definition np_copy (l : loc) : M loc :=
  a ← deref l; alloc a.

Definition np_getslice (l : loc) (start stop : option Z) : M ndarray :=
  a ← deref l; lift (getslice a start stop).

Definition np_setslice (l : loc) (start stop : option Z) (v : ndarray)
  : M unit :=
  a ← deref l; a' ← lift (setslice a start stop v); assign l a'.

Definition np_getitem (l : loc) (i : Z) : M ndarray :=
  a ← deref l; lift (getitem a i).

Definition np_setitem (l : loc) (i : Z) (v : ndarray) : M unit :=
  a ← deref l; a' ← lift (setitem a i v); assign l a'.

(** [a / b] on data: the quotient, and a warning when [b] holds a zero. *)
Definition np_div (a b : ndarray) : M ndarray :=
  fun w => (Ok (a / b)%nd,
            if has_zero b then World (heap w) (DivideByZero :: warns w)
            else w).

(** [for i in l: body] *)
Fixpoint for_ (l : list Z) (body : Z -> M unit) : M unit :=
  match l with
  | [] => mret tt
  | i :: l' => body i;; for_ l' body
  end.

(* ------------------------------------------------------------------ *)
(** ** Python objects the module computes loop bounds with             *)
(* ------------------------------------------------------------------ *)

Inductive pyobj :=
| PyInt (z : Z)
| PyTuple (items : list nat).

(** [a - k] for an integer literal [k]. *)
Definition py_sub (a : pyobj) (k : Z) : M pyobj :=
  match a with
  | PyInt z => mret (PyInt (z - k))
  | PyTuple _ =>
      raise (TypeError "unsupported operand type(s) for -: 'tuple' and 'int'")
  end.

Definition zrange (start stop : Z) : list Z :=
  map (fun k => (start + Z.of_nat k)%Z) (seq 0 (Z.to_nat (stop - start))).

(** [range(start, stop)] *)
Definition py_range (start : Z) (stop : pyobj) : M (list Z) :=
  match stop with
  | PyInt z => mret (zrange start z)
  | PyTuple _ =>
      raise (TypeError "'tuple' object cannot be interpreted as an integer")
  end.

(** [str.upper], on ASCII letters. *)
Definition upper_ascii (c : ascii) : ascii :=
  let n := nat_of_ascii c in
  if ((97 <=? n) && (n <=? 122))%nat then ascii_of_nat (n - 32) else c.

Fixpoint upper (s : string) : string :=
  match s with
  | EmptyString => EmptyString
  | String c s' => String (upper_ascii c) (upper s')
  end.

(* ================================================================== *)
(** * 3. The schemes                                                   *)
(* ================================================================== *)

(** The attributes of the [RunConfig] object the schemes read. *)
Record RunConfig := { Model : string; conv : float; iMax : Z }.

(** What a scheme returns: the array [U], or [None]. *)
Inductive pyret :=
| RNone
| RArray (l : loc).

Definition msg_only_1D : string :=
  "This formulation is only available for 1D first order wave equation or the inviscid Burgers equation in this version.".
Definition msg_no_wave : string :=
  "This formulation is not available for WAVE equation in this version.".
Definition msg_no_burgers : string :=
  "This formulation is not available for BURGERS equation in this version.".
Definition msg_accuracy : string :=
  "Invalid input for argument - Accuracy".

(** [cfg.Model.upper() == name] *)
Definition model_is (cfg : RunConfig) (name : string) : bool :=
  String.eqb (upper (Model cfg)) name.

(** [l[1:-1]], [l[2:]], [l[0:-2]] and [l[1:-1] = v] on the array under [l]. *)
Abbreviation np_mid l := (np_getslice l (Some 1%Z) (Some (-1)%Z)).
Abbreviation np_fwd l := (np_getslice l (Some 2%Z) None).
Abbreviation np_bwd l := (np_getslice l (Some 0%Z) (Some (-2)%Z)).
Abbreviation np_setmid l v := (np_setslice l (Some 1%Z) (Some (-1)%Z) v).

(** [if len(shapeU) == 2: raise Exception(...)], the guard every scheme
    opens with; it yields [shapeU]. *)
Definition check_dimension (Uo : loc) : M (list nat) :=
  shapeU ← np_shape Uo;
  if (length shapeU =? 2)%nat then raise (Exception msg_only_1D)
  else mret shapeU.

Definition ExplicitFirstUpwind (cfg : RunConfig) (Uo : loc) (Courant : float)
  : M pyret :=
  check_dimension Uo;;
  U ← np_copy Uo;
  (if model_is cfg "FO_WAVE" then
     let positive_a := (#1 + sign (conv cfg))%nd in
     let negative_a := (#1 - sign (conv cfg))%nd in
     Uc ← np_mid Uo;
     Ul ← np_bwd Uo;
     Ur ← np_fwd Uo;
     np_setmid U
       (Uc - #0.5 * Courant * positive_a * (Uc - Ul)
           - #0.5 * Courant * negative_a * (Ur - Uc))%nd
   else if model_is cfg "INV_BURGERS" then
     Uo_ ← deref Uo;
     let E := (Uo_ * Uo_ / #2)%nd in
     Uc ← np_mid Uo;
     Ec ← lift (mid E);
     El ← lift (bwd E);
     np_setmid U (Uc - Courant * (Ec - El))%nd
   else mret tt);;
  mret (RArray U).

Definition Lax (cfg : RunConfig) (Uo : loc) (Courant : float) : M pyret :=
  check_dimension Uo;;
  U ← np_copy Uo;
  (if model_is cfg "FO_WAVE" then
     Ur ← np_fwd Uo;
     Ul ← np_bwd Uo;
     np_setmid U (#0.5 * (Ur + Ul) - #0.5 * Courant * (Ur - Ul))%nd
   else if model_is cfg "INV_BURGERS" then
     Uo_ ← deref Uo;
     let E := (Uo_ * Uo_ / #2)%nd in
     Ur ← np_fwd Uo;
     Ul ← np_bwd Uo;
     Er ← lift (fwd E);
     El ← lift (bwd E);
     np_setmid U (#0.5 * (Ur + Ul) - #0.25 * Courant * (Er - El))%nd
   else mret tt);;
  mret (RArray U).

(** The [return U] of this function is commented out in the source: a
    call that raises nothing returns [None]. *)
Definition MidpointLeapfrog (cfg : RunConfig) (Uo : loc) (Courant : float)
  : M pyret :=
  check_dimension Uo;;
  U ← np_copy Uo;
  (if model_is cfg "FO_WAVE" then raise (Exception msg_no_wave)
   else if model_is cfg "INV_BURGERS" then raise (Exception msg_no_burgers)
   else mret tt);;
  mret RNone.

Definition LaxWendroff (cfg : RunConfig) (Uo : loc) (Courant : float)
  : M pyret :=
  check_dimension Uo;;
  U ← np_copy Uo;
  (if model_is cfg "FO_WAVE" then
     let Courant2 := (Courant * Courant)%float in
     Uc ← np_mid Uo;
     Ur ← np_fwd Uo;
     Ul ← np_bwd Uo;
     np_setmid U
       (Uc - #0.5 * Courant * (Ur - Ul)
           + #0.5 * Courant2 * (Ur - #2.0 * Uc + Ul))%nd
   else if model_is cfg "INV_BURGERS" then
     Uo_ ← deref Uo;
     let E := (Uo_ * Uo_ / #2)%nd in
     let Courant2 := (Courant * Courant)%float in
     Uc ← np_mid Uo;
     Er ← lift (fwd E);
     El ← lift (bwd E);
     Ur ← np_fwd Uo;
     Ec ← lift (mid E);
     Ul ← np_bwd Uo;
     np_setmid U
       (Uc - #0.5 * Courant * (Er - El)
           + #0.25 * Courant2 * ((Ur + Uc) * (Er - Ec)
                                 - (Uc + Ul) * (Ec - El)))%nd
   else mret tt);;
  mret (RArray U).

Definition LaxWendroffMultiStep (cfg : RunConfig) (Uo : loc) (Courant : float)
  : M pyret :=
  check_dimension Uo;;
  U ← np_copy Uo;
  Uhalf ← np_copy Uo;
  (if model_is cfg "FO_WAVE" then
     stop ← py_sub (PyInt (iMax cfg)) 1;
     rng ← py_range 1 stop;
     for_ rng (fun i =>
       Uo_i1 ← np_getitem Uo (i + 1);
       Uo_i ← np_getitem Uo i;
       np_setitem Uhalf i
         (#0.5 * (Uo_i1 + Uo_i) - #0.5 * Courant * (Uo_i1 - Uo_i))%nd;;
       Uhalf_i ← np_getitem Uhalf i;
       Uhalf_im1 ← np_getitem Uhalf (i - 1);
       np_setitem U i (Uo_i - Courant * (Uhalf_i - Uhalf_im1))%nd)
   else if model_is cfg "INV_BURGERS" then raise (Exception msg_no_burgers)
   else mret tt);;
  mret (RArray U).

(** [iMax = shapeU] binds the shape tuple, not its first entry:
    [range(1, iMax-1)] subtracts an integer from a tuple.  In the viscous
    branch [c = A*Courant] reads a name [A] that is bound nowhere; the
    statements after it cannot be reached and are not written out. *)
Definition MacCormack (cfg : RunConfig) (Uo : loc) (Courant : float)
  (diffX : float) : M pyret :=
  shapeU ← check_dimension Uo;
  let iMax := PyTuple shapeU in
  U ← np_copy Uo;
  Utemp ← np_copy Uo;
  (if model_is cfg "FO_WAVE" then
     stop ← py_sub iMax 1;
     rng ← py_range 1 stop;
     for_ rng (fun i =>
       Uo_i ← np_getitem Uo i;
       Uo_i1 ← np_getitem Uo (i + 1);
       np_setitem Utemp i (Uo_i - Courant * (Uo_i1 - Uo_i))%nd;;
       Utemp_i ← np_getitem Utemp i;
       Utemp_im1 ← np_getitem Utemp (i - 1);
       np_setitem U i
         (#0.5 * ((Uo_i + Utemp_i) - Courant * (Utemp_i - Utemp_im1)))%nd)
   else if model_is cfg "INV_BURGERS" then
     Uo_ ← deref Uo;
     let E := (Uo_ * Uo_ / #2)%nd in
     Utemp_ ← deref Utemp;
     Etemp ← alloc (Utemp_ * Utemp_ / #2)%nd;
     stop ← py_sub iMax 1;
     rng ← py_range 1 stop;
     for_ rng (fun i =>
       Uo_i ← np_getitem Uo i;
       E_i1 ← lift (getitem E (i + 1));
       E_i ← lift (getitem E i);
       np_setitem Utemp i (Uo_i - Courant * (E_i1 - E_i))%nd;;
       Utemp_i ← np_getitem Utemp i;
       np_setitem Etemp i (Utemp_i * Utemp_i / #2)%nd;;
       Etemp_i ← np_getitem Etemp i;
       Etemp_im1 ← np_getitem Etemp (i - 1);
       np_setitem U i
         (#0.5 * ((Uo_i + Utemp_i) - Courant * (Etemp_i - Etemp_im1)))%nd)
   else if model_is cfg "VISC_BURGERS" then
     raise (NameError "A")
   else mret tt);;
  mret (RArray U).

Definition FourthOrderRungeKutta (cfg : RunConfig) (Uo : loc)
  (Courant : float) : M pyret :=
  check_dimension Uo;;
  U ← np_copy Uo;
  (if model_is cfg "FO_WAVE" then
     U1 ← np_copy Uo;
     U2 ← np_copy Uo;
     U3 ← np_copy Uo;
     Uc ← np_mid Uo;
     Ur ← np_fwd Uo;
     Ul ← np_bwd Uo;
     np_setmid U1 (Uc - #0.5 * Courant * (Ur - Ul) / #2.0)%nd;;
     U1r ← np_fwd U1;
     U1l ← np_bwd U1;
     np_setmid U2 (Uc - #0.5 * Courant * (U1r - U1l) / #2.0)%nd;;
     U2r ← np_fwd U2;
     U2l ← np_bwd U2;
     np_setmid U3 (Uc - Courant * (U2r - U2l) / #2.0)%nd;;
     U3r ← np_fwd U3;
     U3l ← np_bwd U3;
     np_setmid U
       (Uc - #0.5 * Courant
             * ((((#1.0 / #6) * (Ur - Ul))
                 + ((#1.0 / #3) * (U1r - U1l))
                 + ((#1.0 / #3) * (U2r - U2l)))
                + ((#1.0 / #6) * (U3r - U3l))))%nd
   else if model_is cfg "INV_BURGERS" then
     U1 ← np_copy Uo;
     U2 ← np_copy Uo;
     U3 ← np_copy Uo;
     Uo_ ← deref Uo;
     let E1 := (Uo_ * Uo_ / #2)%nd in
     Uc ← np_mid Uo;
     E1r ← lift (fwd E1);
     E1l ← lift (bwd E1);
     np_setmid U1 (Uc - #0.5 * Courant * (E1r - E1l) / #2.0)%nd;;
     U1_ ← deref U1;
     let E2 := (U1_ * U1_ / #2)%nd in
     E2r ← lift (fwd E2);
     E2l ← lift (bwd E2);
     np_setmid U2 (Uc - #0.5 * Courant * (E2r - E2l) / #2.0)%nd;;
     U2_ ← deref U2;
     let E3 := (U2_ * U2_ / #2)%nd in
     E3r ← lift (fwd E3);
     E3l ← lift (bwd E3);
     np_setmid U3 (Uc - Courant * (E3r - E3l) / #2.0)%nd;;
     U3_ ← deref U3;
     let E4 := (U3_ * U3_ / #2)%nd in
     E4r ← lift (fwd E4);
     E4l ← lift (bwd E4);
     np_setmid U
       (Uc - #0.5 * Courant
             * ((((#1.0 / #6) * (E1r - E1l))
                 + ((#1.0 / #3) * (E2r - E2l))
                 + ((#1.0 / #3) * (E3r - E3l)))
                + ((#1.0 / #6) * (E4r - E4l))))%nd
   else mret tt);;
  mret (RArray U).

(** One stage of the modified Runge-Kutta scheme for the wave equation:
    [U[1:-1] = Uo[1:-1] - Courant*(U[2:]-U[0:-2])/k]. *)
Definition mrk_wave_stage (Uo U : loc) (Courant k : float) : M unit :=
  Uc ← np_mid Uo;
  Ur ← np_fwd U;
  Ul ← np_bwd U;
  np_setmid U (Uc - Courant * (Ur - Ul) / k)%nd.

(** One stage for the Burgers equation, with the flux [E] of the stage:
    [U[1:-1] = Uo[1:-1] - Courant*(E[2:]-E[0:-2])/k]. *)
Definition mrk_burgers_stage (Uo U : loc) (E : ndarray) (Courant k : float)
  : M unit :=
  Uc ← np_mid Uo;
  Er ← lift (fwd E);
  El ← lift (bwd E);
  np_setmid U (Uc - Courant * (Er - El) / k)%nd.

Definition ModifiedRungeKutta (cfg : RunConfig) (Uo : loc) (Courant : float)
  (diffX : float) : M pyret :=
  check_dimension Uo;;
  U ← np_copy Uo;
  (if model_is cfg "FO_WAVE" then
     mrk_wave_stage Uo U Courant 8.0;;
     mrk_wave_stage Uo U Courant 6.0;;
     mrk_wave_stage Uo U Courant 4.0;;
     mrk_wave_stage Uo U Courant 2.0
   else if model_is cfg "INV_BURGERS" || model_is cfg "VISC_BURGERS" then
     Uo_ ← deref Uo;
     mrk_burgers_stage Uo U (Uo_ * Uo_ / #2)%nd Courant 8.0;;
     U_ ← deref U;
     mrk_burgers_stage Uo U (U_ * U_ / #2)%nd Courant 6.0;;
     U_ ← deref U;
     mrk_burgers_stage Uo U (U_ * U_ / #2)%nd Courant 4.0;;
     U_ ← deref U;
     mrk_burgers_stage Uo U (U_ * U_ / #2)%nd Courant 2.0;;
     (if model_is cfg "VISC_BURGERS" then
        Uc ← np_mid U;
        Ur ← np_fwd U;
        Ul ← np_bwd U;
        np_setmid U (Uc + diffX * (Ur - #2.0 * Uc + Ul))%nd
      else mret tt)
   else mret tt);;
  mret (RArray U).

(** A list comprehension [[f(i) for i in rng]]. *)
Fixpoint comprehension {A} (rng : list Z) (f : Z -> M A) : M (list A) :=
  match rng with
  | [] => mret []
  | i :: rng' => x ← f i; xs ← comprehension rng' f; mret (x :: xs)
  end.

(** [D[start:stop] = items] on a Python list: the window is replaced by
    the items, however many they are. *)
Definition list_setslice (D : list ndarray) (start stop : option Z)
  (items : list ndarray) : list ndarray :=
  let '(lo, hi) := window (length D) start stop in
  take lo D ++ items ++ drop hi D.

(** [str.lower], on ASCII letters. *)
Definition lower_ascii (c : ascii) : ascii :=
  let n := nat_of_ascii c in
  if ((65 <=? n) && (n <=? 90))%nat then ascii_of_nat (n + 32) else c.

Fixpoint lower (s : string) : string :=
  match s with
  | EmptyString => EmptyString
  | String c s' => String (lower_ascii c) (lower s')
  end.

(** [Accuracy.lower == name]: the bound method itself, which is not
    called, compared with a string.  A method object equals no string. *)
Definition method_equals_str (self name : string) : bool := false.

Section Schemes.

(** The collaborators of the module that live in other files of the
    package: they are parameters of the schemes. *)

(** [nanpack.secondaryfunctions.CalcUi], used by [FirstOrderTVD] for the
    state difference across a face; a function of its two arguments. *)
Variable CalcUi : ndarray -> ndarray -> ndarray.

(** [nanpack.tridiagonal.TridiagonalSolver(iMax, A, B, C, D, UU)]: the
    coefficient sequences are passed by value, the buffer [UU] by
    reference. *)
Variable TridiagonalSolver :
  pyobj -> list ndarray -> list ndarray -> list ndarray -> list ndarray ->
  loc -> M pyret.

(** [backend.fetchoptions.FetchOptions().TVDLimiterFunctionOptions()]. *)
Variable TVDLimiterFunctionOptions : list string.

(** [nanpack.tvdfunctions.CalculateTVD(i, Uo, E, Eps, Courant, Limiter,
    LimiterFunc)], which is handed the state [Uo] by reference. *)
Variable CalculateTVD :
  Z -> loc -> ndarray -> float -> float -> string -> string ->
  M (ndarray * ndarray).

(** [iMax = shapeU] makes [range(iMax)] fail in both branches that solve a
    system: a tuple is no loop bound. *)
Definition EulersBTCS (cfg : RunConfig) (Uo : loc) (Courant : float)
  (diffX : float) : M pyret :=
  shapeU ← check_dimension Uo;
  let iMax_ := PyTuple shapeU in
  U ← np_copy Uo;
  (if model_is cfg "FO_WAVE" then
     let cc := (#0.5 * Courant)%nd in
     rng ← py_range 0 iMax_;
     let A := map (fun _ => cc) rng in
     rng ← py_range 0 iMax_;
     let B := map (fun _ => (#(-1))%nd) rng in
     rng ← py_range 0 iMax_;
     let C := map (fun _ => (- cc)%nd) rng in
     Uo_ ← deref Uo;
     let D := rows_of (- Uo_)%nd in
     UU ← np_copy Uo;
     TridiagonalSolver (PyInt (iMax cfg)) A B C D UU
   else if model_is cfg "INV_BURGERS" then raise (Exception msg_no_burgers)
   else if model_is cfg "VISC_BURGERS" then
     Uo_ ← deref Uo;
     let E := (Uo_ * Uo_ / #2)%nd in
     A ← np_copy Uo;
     let cc := (#0.5 * Courant)%nd in
     Er ← lift (fwd E);
     Ec ← lift (mid E);
     Ur ← np_fwd Uo;
     Uc ← np_mid Uo;
     q ← np_div (Er - Ec)%nd (Ur - Uc)%nd;
     np_setmid A q;;
     rng ← py_range 0 iMax_;
     a ← comprehension rng (fun i =>
            A_i ← np_getitem A i; mret (- #diffX - A_i * cc)%nd);
     rng ← py_range 0 iMax_;
     let b := map (fun _ => (#1.0 + #2.0 * diffX)%nd) rng in
     rng ← py_range 0 iMax_;
     c ← comprehension rng (fun i =>
            A_i ← np_getitem A i; mret (- #diffX + A_i * cc)%nd);
     rng ← py_range 0 iMax_;
     d ← comprehension rng (fun i => np_getitem Uo i);
     UU ← np_copy Uo;
     TridiagonalSolver iMax_ a b c d UU
   else mret (RArray U)).

Definition CrankNicolson (cfg : RunConfig) (Uo : loc) (Courant : float)
  : M pyret :=
  check_dimension Uo;;
  U ← np_copy Uo;
  (if model_is cfg "FO_WAVE" then
     let cc := (#0.25 * Courant)%nd in
     rng ← py_range 0 (PyInt (iMax cfg));
     let A := map (fun _ => cc) rng in
     rng ← py_range 0 (PyInt (iMax cfg));
     let B := map (fun _ => (#(-1.0))%nd) rng in
     rng ← py_range 0 (PyInt (iMax cfg));
     let C := map (fun _ => (- cc)%nd) rng in
     rng ← py_range 0 (PyInt (iMax cfg));
     let D := map (fun _ => (#0)%nd) rng in
     Uc ← np_mid Uo;
     Ur ← np_fwd Uo;
     Ul ← np_bwd Uo;
     let D := list_setslice D (Some 1%Z) (Some (-1)%Z)
                (rows_of (- Uc + #0.25 * Courant * (Ur - Ul))%nd) in
     UU ← np_copy Uo;
     TridiagonalSolver (PyInt (iMax cfg)) A B C D UU
   else if model_is cfg "INV_BURGERS" then raise (Exception msg_no_burgers)
   else mret (RArray U)).

Definition BeamAndWarming (cfg : RunConfig) (Uo : loc) (Courant : float)
  : M pyret :=
  shapeU ← check_dimension Uo;
  U ← np_copy Uo;
  (if model_is cfg "FO_WAVE" then raise (Exception msg_no_wave)
   else if model_is cfg "INV_BURGERS" then
     let iMax_ := PyTuple shapeU in
     Uo_ ← deref Uo;
     let E := (Uo_ * Uo_ / #2)%nd in
     let cc := (#0.25 * Courant)%nd in
     rng ← py_range 0 iMax_;
     A ← comprehension rng (fun i =>
            Uo_im1 ← np_getitem Uo (i - 1); mret (- cc * Uo_im1)%nd);
     rng ← py_range 0 iMax_;
     let B := map (fun _ => (#1.0)%nd) rng in
     rng ← py_range 0 iMax_;
     C ← comprehension rng (fun i =>
            Uo_im1 ← np_getitem Uo (i - 1); mret (cc * Uo_im1)%nd);
     rng ← py_range 0 iMax_;
     let D := map (fun _ => (#0.0)%nd) rng in
     Uc ← np_mid Uo;
     Er ← lift (fwd E);
     El ← lift (bwd E);
     Ur ← np_fwd Uo;
     Ul ← np_bwd Uo;
     let D := list_setslice D (Some 1%Z) (Some (-1)%Z)
                (rows_of (Uc - #0.5 * Courant * (Er - El)
                          + #0.25 * Courant * (Ur * Ur - Ul * Ul))%nd) in
     UU ← np_copy Uo;
     TridiagonalSolver (PyInt (iMax cfg)) A B C D UU
   else mret (RArray U)).

(** The characteristic speed at one face of [FirstOrderTVD], between the
    nodes [lo] and [hi] beside node [i], with [dU] the state difference
    across the face:
    [if dU == 0: alpha = Uo[i]  else: alpha = (E[hi]-E[lo]) / dU]. *)
Definition alpha_face (Uo : loc) (E : ndarray) (i hi lo : Z) (dU : ndarray)
  : M ndarray :=
  z ← lift (is_zero dU);
  if (z : bool) then np_getitem Uo i
  else
    E_hi ← lift (getitem E hi);
    E_lo ← lift (getitem E lo);
    np_div (E_hi - E_lo)%nd dU.

(** The body of the loop of [FirstOrderTVD] at node [i]. *)
Definition FirstOrderTVD_node (Uo U : loc) (E : ndarray) (Courant : float)
  (i : Z) : M unit :=
  Uo_i1 ← np_getitem Uo (i + 1);
  Uo_i ← np_getitem Uo i;
  let dUiPlus12 := CalcUi Uo_i1 Uo_i in
  Uo_i ← np_getitem Uo i;
  Uo_im1 ← np_getitem Uo (i - 1);
  let dUiMinus12 := CalcUi Uo_i Uo_im1 in
  alphaiPlus12 ← alpha_face Uo E i (i + 1) i dUiPlus12;
  alphaiMinus12 ← alpha_face Uo E i i (i - 1) dUiMinus12;
  let phiPlus := (nd_map PrimFloat.abs alphaiPlus12 * dUiPlus12)%nd in
  let phiMinus := (nd_map PrimFloat.abs alphaiMinus12 * dUiMinus12)%nd in
  Uo_i ← np_getitem Uo i;
  E_i1 ← lift (getitem E (i + 1));
  E_im1 ← lift (getitem E (i - 1));
  let Utemp := (Uo_i - #0.5 * Courant * (E_i1 - E_im1))%nd in
  np_setitem U i (Utemp + #0.5 * Courant * (phiPlus - phiMinus))%nd.

Definition FirstOrderTVD (cfg : RunConfig) (Uo : loc) (Courant : float)
  : M pyret :=
  check_dimension Uo;;
  (if model_is cfg "FO_WAVE" then raise (Exception msg_no_wave)
   else mret tt);;
  U ← np_copy Uo;
  Uo_ ← deref Uo;
  let E := (Uo_ * Uo_ / #2)%nd in
  stop ← py_sub (PyInt (iMax cfg)) 1;
  rng ← py_range 1 stop;
  for_ rng (FirstOrderTVD_node Uo U E Courant);;
  mret (RArray U).

(** The message of [SecondOrderTVD] for a limiter function that is not
    among the options; it ends with the options. *)
Definition msg_limiter (options : list string) : string :=
  ("Invalid flux limiter function selection in the call to function"
   ++ String (ascii_of_nat 10)
        "SecondOrderTVD().\Valid options for LimiterFunc are: "
   ++ "[" ++ String.concat ", " (map (fun o => "'" ++ o ++ "'") options)
   ++ "].")%string.

(** [iMax = shapeU] again: [range(2, iMax-2)] cannot be evaluated.  In the
    loop the viscous branch reads [diffX], which is no parameter of this
    function and is bound nowhere. *)
Definition SecondOrderTVD (cfg : RunConfig) (Uo : loc) (Courant : float)
  (LimiterFunc Limiter : string) (Eps : float) : M pyret :=
  shapeU ← check_dimension Uo;
  (if model_is cfg "FO_WAVE" then raise (Exception msg_no_wave)
   else mret tt);;
  let iMax_ := PyTuple shapeU in
  U ← np_copy Uo;
  Uo_ ← deref Uo;
  let E := (Uo_ * Uo_ / #2)%nd in
  let limfunc_options := TVDLimiterFunctionOptions in
  (if existsb (String.eqb LimiterFunc) limfunc_options then mret tt
   else raise (Exception (msg_limiter limfunc_options)));;
  stop ← py_sub iMax_ 2;
  rng ← py_range 2 stop;
  for_ rng (fun i =>
    '(phiPlus, phiMinus) ←
      CalculateTVD i Uo E Eps Courant Limiter LimiterFunc;
    E_i1 ← lift (getitem E (i + 1));
    E_i ← lift (getitem E i);
    let hPlus := (#0.5 * (E_i1 + E_i + phiPlus))%nd in
    E_im1 ← lift (getitem E (i - 1));
    let hMinus := (#0.5 * (E_i + E_im1 + phiMinus))%nd in
    diffusion ← (if model_is cfg "VISC_BURGERS"
                 then raise (NameError "diffX")
                 else mret (#0.0)%nd);
    Uo_i ← np_getitem Uo i;
    np_setitem U i (Uo_i - Courant * (hPlus - hMinus) + diffusion)%nd);;
  mret (RArray U).

(** The guard of the schemes for the viscous Burgers equation only.  Both
    branches raise the message that names the WAVE equation. *)
Definition viscous_only (cfg : RunConfig) : M unit :=
  if model_is cfg "FO_WAVE" then raise (Exception msg_no_wave)
  else if model_is cfg "INV_BURGERS" then raise (Exception msg_no_wave)
  else mret tt.

(** [A[1:-1] = (E[2:]-E[1:-1]) / (Uo[2:]-Uo[1:-1])], the face Jacobian of
    [FTCS] and [FTBCS]; the divisor is not tested. *)
Definition face_jacobian (Uo A : loc) (E : ndarray) : M unit :=
  Er ← lift (fwd E);
  Ec ← lift (mid E);
  Ur ← np_fwd Uo;
  Uc ← np_mid Uo;
  q ← np_div (Er - Ec)%nd (Ur - Uc)%nd;
  np_setmid A q.

Definition FTCS (cfg : RunConfig) (Uo : loc) (Courant diffX : float)
  : M pyret :=
  check_dimension Uo;;
  viscous_only cfg;;
  U ← np_copy Uo;
  A ← np_copy Uo;
  Uo_ ← deref Uo;
  let E := (Uo_ * Uo_ / #2)%nd in
  face_jacobian Uo A E;;
  Uc ← np_mid Uo;
  Ar ← np_fwd A;
  Al ← np_bwd A;
  Ur ← np_fwd Uo;
  Ul ← np_bwd Uo;
  np_setmid U
    (Uc - #0.5 * #0.5 * Courant * (Ar + Al) * (Ur - Ul)
        + diffX * (Ur - #2.0 * Uc + Ul))%nd;;
  mret (RArray U).

Definition FTBCS (cfg : RunConfig) (Uo : loc) (Courant diffX : float)
  : M pyret :=
  check_dimension Uo;;
  viscous_only cfg;;
  U ← np_copy Uo;
  A ← np_copy Uo;
  Uo_ ← deref Uo;
  let E := (Uo_ * Uo_ / #2)%nd in
  face_jacobian Uo A E;;
  Uc ← np_mid Uo;
  Ar ← np_fwd A;
  Al ← np_bwd A;
  Ul ← np_bwd Uo;
  Ur ← np_fwd Uo;
  np_setmid U
    (Uc - #0.5 * Courant * (Ar + Al) * (Uc - Ul)
        + diffX * (Ur - #2.0 * Uc + Ul))%nd;;
  mret (RArray U).

(** Python's [x / y] on floats. *)
Definition py_div (x y : float) : M float :=
  if PrimFloat.eqb y 0 then raise ZeroDivisionError
  else mret (x / y)%float.

(** [iMax = shapeU] once more: [range(1, iMax)].  The update inside the
    loop reads [d], a name bound nowhere, in its third term. *)
Definition DuFortFrankel (cfg : RunConfig) (Uo Uo2 : loc)
  (Courant diffX : float) : M pyret :=
  shapeU ← check_dimension Uo;
  viscous_only cfg;;
  let iMax_ := PyTuple shapeU in
  U ← np_copy Uo;
  Uo_ ← deref Uo;
  let E := (Uo_ * Uo_ / #2)%nd in
  rng ← py_range 1 iMax_;
  for_ rng (fun i =>
    E_i1 ← lift (getitem E (i + 1));
    E_i ← lift (getitem E i);
    Uo_i1 ← np_getitem Uo (i + 1);
    Uo_i ← np_getitem Uo i;
    A ← np_div (E_i1 - E_i)%nd (Uo_i1 - Uo_i)%nd;
    let c := (A * Courant)%nd in
    k1 ← py_div (1.0 - 2.0 * diffX) (1.0 + 2.0 * diffX);
    Uo2_i ← np_getitem Uo2 i;
    Uo_im1 ← np_getitem Uo (i - 1);
    raise (NameError "d"));;
  mret (RArray U).

(** The text of [BTBCS] is not a Python program: the three tables are
    written [{"1"=1.0, ...}] and line 1450 opens a bracket it never
    closes.  The definition follows the statements in the only reading
    they admit (tables from key to weight, the stray bracket dropped):
    the second and third tests compare the method [Accuracy.lower] with a
    string, and [A[1:-1] = ...] subscripts a name bound nowhere, after
    its right-hand side has been evaluated. *)
Definition BTBCS (cfg : RunConfig) (Uo : loc) (Courant diffX : float)
  (Accuracy : string) : M pyret :=
  shapeU ← check_dimension Uo;
  viscous_only cfg;;
  th ← (if String.eqb (lower Accuracy) "first-order"
        then mret [1.0; 1.0; 0.0; 0.0]%float
        else if method_equals_str Accuracy "second-order"
        then mret [2.0; 3.0 / 2; 0.0; -1.0 / 2]%float
        else if method_equals_str Accuracy "third-order"
        then mret [1.0; 1.0 / 2; 1.0 / 3; -1.0 / 6]%float
        else raise (Exception msg_accuracy));
  let iMax_ := PyTuple shapeU in
  Uo_ ← deref Uo;
  let E := (Uo_ * Uo_ / #2)%nd in
  Er ← lift (fwd E);
  El ← lift (bwd E);
  Ur ← np_fwd Uo;
  Ul ← np_bwd Uo;
  q ← np_div (Er - El)%nd (Ur - Ul)%nd;
  raise (NameError "A").

(** ** Every scheme of the module                                      *)

Inductive scheme :=
| SExplicitFirstUpwind | SLax | SMidpointLeapfrog | SLaxWendroff
| SLaxWendroffMultiStep | SMacCormack | SFourthOrderRungeKutta
| SModifiedRungeKutta | SEulersBTCS | SCrankNicolson | SBeamAndWarming
| SFirstOrderTVD | SSecondOrderTVD | SFTCS | SFTBCS | SDuFortFrankel
| SBTBCS.

(** The arguments of a call besides [cfg]; a scheme reads those of its
    signature. *)
Record args := {
  Uo : loc;
  Uo2 : loc;
  Courant : float;
  diffX : float;
  Accuracy : string;
  LimiterFunc : string;
  Limiter : string;
  Eps : float }.

Definition run (s : scheme) (cfg : RunConfig) (x : args) : M pyret :=
  match s with
  | SExplicitFirstUpwind => ExplicitFirstUpwind cfg (Uo x) (Courant x)
  | SLax => Lax cfg (Uo x) (Courant x)
  | SMidpointLeapfrog => MidpointLeapfrog cfg (Uo x) (Courant x)
  | SLaxWendroff => LaxWendroff cfg (Uo x) (Courant x)
  | SLaxWendroffMultiStep => LaxWendroffMultiStep cfg (Uo x) (Courant x)
  | SMacCormack => MacCormack cfg (Uo x) (Courant x) (diffX x)
  | SFourthOrderRungeKutta => FourthOrderRungeKutta cfg (Uo x) (Courant x)
  | SModifiedRungeKutta =>
      ModifiedRungeKutta cfg (Uo x) (Courant x) (diffX x)
  | SEulersBTCS => EulersBTCS cfg (Uo x) (Courant x) (diffX x)
  | SCrankNicolson => CrankNicolson cfg (Uo x) (Courant x)
  | SBeamAndWarming => BeamAndWarming cfg (Uo x) (Courant x)
  | SFirstOrderTVD => FirstOrderTVD cfg (Uo x) (Courant x)
  | SSecondOrderTVD =>
      SecondOrderTVD cfg (Uo x) (Courant x) (LimiterFunc x) (Limiter x)
        (Eps x)
  | SFTCS => FTCS cfg (Uo x) (Courant x) (diffX x)
  | SFTBCS => FTBCS cfg (Uo x) (Courant x) (diffX x)
  | SDuFortFrankel =>
      DuFortFrankel cfg (Uo x) (Uo2 x) (Courant x) (diffX x)
  | SBTBCS => BTBCS cfg (Uo x) (Courant x) (diffX x) (Accuracy x)
  end.

End Schemes.

(* ================================================================== *)
(** * 4. The collaborators of the module *)
(* ================================================================== *)

(** The functions of other files of the package that the schemes call,
    as the specification describes them.  The schemes take them as
    parameters; these are the ones the concrete runs use. *)

(** Modelled from the spec: [nanpack.secondaryfunctions.CalcUi] is not in
    this module; the specification calls its result "the state
    difference across" a face. *)
Definition CalcUi_difference (a b : ndarray) : ndarray := (a - b)%nd.

(** Modelled from the spec: the allow-list of limiter names of
    [backend.fetchoptions] is not in this module. *)
Definition no_limiter_options : list string := [].

(** Modelled from the spec: [nanpack.tvdfunctions.CalculateTVD] is not in
    this module; it yields the two face corrections (phiPlus, phiMinus).
    The loop that calls it is never entered. *)
Definition CalculateTVD_zero (i : Z) (Uo : loc) (E : ndarray)
  (Eps Courant : float) (Limiter LimiterFunc : string)
  : M (ndarray * ndarray) :=
  mret ((#0)%nd, (#0)%nd).

(** Modelled from the spec: the forward elimination of the Thomas
    algorithm over the interior rows [(sub, diag, super, rhs)]: the
    diagonal is normalised and the sub-diagonal eliminated, starting from
    the boundary value [d_prev] of the buffer. *)
Fixpoint forward_elimination
  (rows : list (ndarray * ndarray * ndarray * ndarray))
  (c_prev d_prev : ndarray) : list (ndarray * ndarray) :=
  match rows with
  | [] => []
  | (a, b, c, d) :: rows' =>
      let den := (b - a * c_prev)%nd in
      let c' := (c / den)%nd in
      let d' := ((d - a * d_prev) / den)%nd in
      (c', d') :: forward_elimination rows' c' d'
  end.

(** Modelled from the spec: the back-substitution of the Thomas
    algorithm, from the boundary value [u_last] of the buffer. *)
Definition back_substitution (cd : list (ndarray * ndarray))
  (u_last : ndarray) : list ndarray :=
  foldr (fun '(c', d') acc =>
           (d' - c' * default u_last (head acc))%nd :: acc) [] cd.

(** Modelled from the spec: [nanpack.tridiagonal.TridiagonalSolver] is not
    in this module.  The specification describes it as the Thomas
    algorithm without pivoting (forward elimination, then
    back-substitution) over coefficient sequences aligned with the state,
    solving into an "initial/output buffer".  Here the interior rows
    [1 .. iMax-2] are solved and the two end values of the buffer are the
    fixed boundary values. *)
Definition ThomasSolver (n : pyobj) (A B C D : list ndarray) (UU : loc)
  : M pyret :=
  match n with
  | PyTuple _ =>
      raise (TypeError "'tuple' object cannot be interpreted as an integer")
  | PyInt z =>
      u ← deref UU;
      match u with
      | Scalar _ => raise (IndexError "too many indices for array")
      | Array inner rows =>
          let m := Z.to_nat z in
          if (m <=? 2)%nat then mret (RArray UU)
          else if ((m <=? length rows) && (m <=? length A) &&
                   (m <=? length B) && (m <=? length C) &&
                   (m <=? length D))%nat
          then
            let coefficients := zip (zip (zip A B) C) D in
            let cd := forward_elimination
                        (take (m - 2) (drop 1 coefficients))
                        (#0)%nd (default (#0)%nd (rows !! 0)) in
            let sol := back_substitution cd
                         (default (#0)%nd (rows !! (m - 1))) in
            assign UU (Array inner (take 1 rows ++ sol ++ drop (m - 1) rows));;
            mret (RArray UU)
          else raise (IndexError "index out of bounds")
      end
  end.

(** The schemes run with these collaborators. *)
Definition run_with_thomas : scheme -> RunConfig -> args -> M pyret :=
  run CalcUi_difference ThomasSolver no_limiter_options CalculateTVD_zero.

(* ================================================================== *)
(** * 5. The inputs of the concrete runs *)
(* ================================================================== *)

(** The wave model with speed [a = 1] on five nodes, and the state
    [[0, 1, 2, 1, 0]] as the only array of the store. *)
Definition cfg_wave : RunConfig :=
  {| Model := "FO_WAVE"; conv := 1; iMax := 5 |}.

Definition state_01210 : ndarray := vec [0; 1; 2; 1; 0]%float.

Definition world_01210 : world := World [state_01210] [].

Definition cfg_inviscid : RunConfig :=
  {| Model := "INV_BURGERS"; conv := 1; iMax := 5 |}.

Definition cfg_viscous : RunConfig :=
  {| Model := "VISC_BURGERS"; conv := 1; iMax := 5 |}.

(** A model name the module knows nothing of. *)
Definition cfg_heat : RunConfig :=
  {| Model := "HEAT"; conv := 1; iMax := 5 |}.

(** A call on the state under location 0, Courant number 0.5, diffusion
    number 0.125. *)
Definition call_args : args :=
  {| Uo := 0; Uo2 := 0; Courant := 0.5; diffX := 0.125;
     Accuracy := "second-order"; LimiterFunc := "minmod"; Limiter := "G";
     Eps := 0.125 |}.

(** A uniform state of four nodes. *)
Definition uniform_1111 : ndarray := vec [1; 1; 1; 1]%float.

(** A state of shape (3, 1, 1), and one of shape (2, 2). *)
Definition cell (x : float) : ndarray := Array [1] [Array [] [Scalar x]].

Definition state_3d : ndarray := Array [1; 1] [cell 0; cell 1; cell 0.5].

Definition state_2d : ndarray :=
  Array [2] [vec [0; 1]%float; vec [1; 0]%float].

(** A state with two equal neighbours, and the store after [U = Uo.copy()]:
    at node 1 the state difference across the right face is zero. *)
Definition state_01120 : ndarray := vec [0; 1; 1; 2; 0]%float.

Definition world_tvd : world := World [state_01120; state_01120] [].

(* ================================================================== *)
(** * 6. The vocabulary of the statements *)
(* ================================================================== *)

(** [wp m Q w]: the run of [m] from the world [w] ends in an outcome and
    a world that satisfy [Q].  Runs are total functions, so this is a
    statement about the run that exists. *)
Definition wp {A} (m : M A) (Q : result A -> world -> Prop) (w : world)
  : Prop :=
  Q (m w).1 (m w).2.

(** What [m] must establish for [m ≫= k] to establish [Q]. *)
Definition bindpost {A B} (k : A -> M B) (Q : result B -> world -> Prop)
  : result A -> world -> Prop :=
  fun r w => match r with
             | Ok a => wp (k a) Q w
             | Err e => Q (Err e) w
             end.

(** [u] has the shape of [a] and the same first and last row. *)
Definition same_ends (a u : ndarray) : Prop :=
  shape u = shape a /\
  head (rows_of u) = head (rows_of a) /\
  last (rows_of u) = last (rows_of a).

(** Computations that leave the store of arrays as it is. *)
Definition heap_pure {A} (m : M A) : Prop :=
  forall w, heap (m w).2 = heap w.

(** Computations that issue no warning. *)
Definition warns_pure {A} (m : M A) : Prop :=
  forall w, warns (m w).2 = warns w.

(** Computations that return nothing: every run ends in an exception. *)
Definition never_ok {A} (m : M A) : Prop :=
  forall w, is_ok (m w).1 = false.

Section Invariant.

(** The store [h0] at the call and the value [a0] of the state passed in. *)
Variables (h0 : list ndarray) (a0 : ndarray).

(** The arrays that existed at the call are as they were, and each of
    the arrays [ls] made since holds the shape and the end rows of the
    input state. *)
Definition tracked (ls : list loc) (w : world) : Prop :=
  h0 `prefix_of` heap w /\
  forall l, l ∈ ls ->
    length h0 <= l /\ exists u, heap w !! l = Some u /\ same_ends a0 u.

(** A postcondition that asks of a failed run only that the arrays of the
    call are as they were. *)
Definition err_ok {A} (Q : result A -> world -> Prop) : Prop :=
  forall e w, h0 `prefix_of` heap w -> Q (Err e) w.

(** What a scheme's run is shown to end in. *)
Definition kept : result pyret -> world -> Prop :=
  fun r w =>
    h0 `prefix_of` heap w /\
    forall U, r = Ok (RArray U) ->
      length h0 <= U /\ exists u, heap w !! U = Some u /\ same_ends a0 u.

(** The weaker one: the arrays of the call are as they were. *)
Definition framed : result pyret -> world -> Prop :=
  fun _ w => h0 `prefix_of` heap w.

End Invariant.

(** ** What the schemes need of the tridiagonal solver                *)

(** The solver writes to no array but its buffer [UU]. *)
Definition solver_frame
  (solver : pyobj -> list ndarray -> list ndarray -> list ndarray ->
            list ndarray -> loc -> M pyret) : Prop :=
  forall n A B C D UU w l a,
    l <> UU -> heap w !! l = Some a ->
    heap (solver n A B C D UU w).2 !! l = Some a.

(** The array the solver returns is its buffer or a new array, and it
    holds the shape and the end rows the buffer had. *)
Definition solver_keeps_ends
  (solver : pyobj -> list ndarray -> list ndarray -> list ndarray ->
            list ndarray -> loc -> M pyret) : Prop :=
  forall n A B C D UU w U u,
    (solver n A B C D UU w).1 = Ok (RArray U) ->
    heap w !! UU = Some u ->
    (U = UU \/ length (heap w) <= U) /\
    exists u', heap (solver n A B C D UU w).2 !! U = Some u' /\
               same_ends u u'.

(** ** Messages, models and speeds                                    *)

(** How the module names its schemes and its models in messages. *)
Definition scheme_name (s : scheme) : string :=
  match s with
  | SExplicitFirstUpwind => "ExplicitFirstUpwind"
  | SLax => "Lax"
  | SMidpointLeapfrog => "MidpointLeapfrog"
  | SLaxWendroff => "LaxWendroff"
  | SLaxWendroffMultiStep => "LaxWendroffMultiStep"
  | SMacCormack => "MacCormack"
  | SFourthOrderRungeKutta => "FourthOrderRungeKutta"
  | SModifiedRungeKutta => "ModifiedRungeKutta"
  | SEulersBTCS => "EulersBTCS"
  | SCrankNicolson => "CrankNicolson"
  | SBeamAndWarming => "BeamAndWarming"
  | SFirstOrderTVD => "FirstOrderTVD"
  | SSecondOrderTVD => "SecondOrderTVD"
  | SFTCS => "FTCS"
  | SFTBCS => "FTBCS"
  | SDuFortFrankel => "DuFortFrankel"
  | SBTBCS => "BTBCS"
  end.

Fixpoint starts_with (p s : string) : bool :=
  match p, s with
  | EmptyString, _ => true
  | String a p', String b s' => Ascii.eqb a b && starts_with p' s'
  | String _ _, EmptyString => false
  end.

Fixpoint contains (needle hay : string) : bool :=
  starts_with needle hay ||
  match hay with
  | EmptyString => false
  | String _ hay' => contains needle hay'
  end.

(** A message names [what] when it holds the word, in any case. *)
Definition names (what msg : string) : bool :=
  contains (upper what) (upper msg).

(** The models a scheme has a branch for that raises: the pairings the
    module turns down. *)
Definition rejected_models (s : scheme) : list string :=
  match s with
  | SMidpointLeapfrog | SFTCS | SFTBCS | SDuFortFrankel | SBTBCS =>
      ["FO_WAVE"; "INV_BURGERS"]
  | SLaxWendroffMultiStep | SEulersBTCS | SCrankNicolson => ["INV_BURGERS"]
  | SBeamAndWarming | SFirstOrderTVD | SSecondOrderTVD => ["FO_WAVE"]
  | _ => []
  end%string.

(** The schemes for the viscous Burgers equation only, which share the
    guard [viscous_only]. *)
Definition viscous_family (s : scheme) : bool :=
  match s with
  | SFTCS | SFTBCS | SDuFortFrankel | SBTBCS => true
  | _ => false
  end.

(** The message for a model, by the equation it belongs to. *)
Definition message_for (model : string) : string :=
  if String.eqb model "FO_WAVE" then msg_no_wave else msg_no_burgers.

(** The models a scheme tests for, for the schemes whose tests are one
    [if]/[elif] chain around the update and that end in [return U]. *)
Definition dispatch_models (s : scheme) : option (list string) :=
  match s with
  | SExplicitFirstUpwind | SLax | SLaxWendroff | SLaxWendroffMultiStep
  | SFourthOrderRungeKutta => Some ["FO_WAVE"; "INV_BURGERS"]
  | SMacCormack | SModifiedRungeKutta =>
      Some ["FO_WAVE"; "INV_BURGERS"; "VISC_BURGERS"]
  | _ => None
  end%string.

(** The characteristic speed as the specification words it: the flux
    difference over the state difference, and the local state value when
    the state difference is exactly zero. *)
Definition alpha_spec (dE : ndarray) (dU : float) (Uo_i : ndarray)
  : ndarray :=
  if PrimFloat.eqb dU 0 then Uo_i else (dE / #dU)%nd.

(* ------------------------------------------------------------------ *)
(** ** State vectors node by node                                      *)
(* ------------------------------------------------------------------ *)

(** The vector [[g 0; ...; g (n-1)]]. *)
Definition tabulate (n : nat) (g : nat -> float) : list float :=
  map g (seq 0 n).

(** A three-point stencil over the nodes [zs]: the first and the last
    node hold [keep z], every node in between holds [f] of its left
    neighbour, itself and its right neighbour.  With nodes that pair the
    values of several arrays, [f] reads all of them. *)
Definition stencil {A} (keep : A -> float) (f : A -> A -> A -> float)
  (zs : list A) : list float :=
  imap (fun i z => match i with
                   | 0 => keep z
                   | S j => match zs !! j, zs !! S i with
                            | Some l, Some r => f l z r
                            | _, _ => keep z
                            end
                   end) zs.

(** The vector a loop over the nodes has made of [xs] when it reaches
    node [k]: the nodes [1 .. k-1] hold [F 1 .. F (k-1)], the others are
    those of [xs]. *)
Definition loop_state (k : nat) (F : nat -> float) (xs : list float)
  : list float :=
  imap (fun i x => if (1 <=? i) && (i <? k) then F i else x) xs.

(** The flux [E = u*u/2] of the Burgers equation at one node. *)
Definition burgers_flux (u : float) : float := (u * u / 2)%float.

(** [ExplicitFirstUpwind], lines 101-110, at one interior node with
    neighbours [ul] and [ur]. *)
Definition ExplicitFirstUpwind_node (cfg : RunConfig) (C : float)
  (ul uc ur : float) : float :=
  if model_is cfg "FO_WAVE" then
    (uc - 0.5 * C * (1 + sign (conv cfg)) * (uc - ul)
        - 0.5 * C * (1 - sign (conv cfg)) * (ur - uc))%float
  else if model_is cfg "INV_BURGERS" then
    (uc - C * (uc * uc / 2 - ul * ul / 2))%float
  else uc.

(** [Lax], lines 171-178, at one interior node. *)
Definition Lax_node (cfg : RunConfig) (C : float) (ul uc ur : float)
  : float :=
  if model_is cfg "FO_WAVE" then
    (0.5 * (ur + ul) - 0.5 * C * (ur - ul))%float
  else if model_is cfg "INV_BURGERS" then
    (0.5 * (ur + ul) - 0.25 * C * (ur * ur / 2 - ul * ul / 2))%float
  else uc.

(** [LaxWendroff], lines 306-316, at one interior node. *)
Definition LaxWendroff_node (cfg : RunConfig) (C : float) (ul uc ur : float)
  : float :=
  if model_is cfg "FO_WAVE" then
    (uc - 0.5 * C * (ur - ul) + 0.5 * (C * C) * (ur - 2.0 * uc + ul))%float
  else if model_is cfg "INV_BURGERS" then
    (uc - 0.5 * C * (ur * ur / 2 - ul * ul / 2)
        + 0.25 * (C * C)
          * ((ur + uc) * (ur * ur / 2 - uc * uc / 2)
             - (uc + ul) * (uc * uc / 2 - ul * ul / 2)))%float
  else uc.

(** [LaxWendroffMultiStep], lines 371-372: the half-step value
    [Uhalf[i]] and the new value [U[i]], the latter from the nodes [l]
    and [c] that pair [Uo] with [Uhalf]. *)
Definition lwms_half_node (C : float) (ul uc ur : float) : float :=
  (0.5 * (ur + uc) - 0.5 * C * (ur - uc))%float.

Definition lwms_node (C : float) (l c r : float * float) : float :=
  (c.1 - C * (c.2 - l.2))%float.

(** The same two values by the index of the node, as the loop computes
    them: [Uhalf[i]] from [Uo], and [U[i]] from [Uo] and the [Uhalf] that
    the loop has written up to node [i]. *)
Definition lwms_half (C : float) (xs : list float) (i : nat) : float :=
  (0.5 * (nth (S i) xs 0 + nth i xs 0)
   - 0.5 * C * (nth (S i) xs 0 - nth i xs 0))%float.

Definition lwms_new (C : float) (xs : list float) (i : nat) : float :=
  let Uhalf := loop_state (S i) (lwms_half C xs) xs in
  (nth i xs 0 - C * (nth i Uhalf 0 - nth (i - 1) Uhalf 0))%float.

(** [FourthOrderRungeKutta], lines 543-554 and 562-576: the first two
    stages, the third stage and the last one.  A stage reads the state
    [xs] at the node and the fluxes of the array [us] of the stage before
    at the two neighbours; the last stage reads all four arrays. *)
Definition rk4_half (flux : float -> float) (C : float)
  (xs us : list float) : list float :=
  stencil fst
    (fun l c r : float * float =>
       (c.1 - 0.5 * C * (flux r.2 - flux l.2) / 2.0)%float)
    (zip xs us).

Definition rk4_full (flux : float -> float) (C : float)
  (xs us : list float) : list float :=
  stencil fst
    (fun l c r : float * float =>
       (c.1 - C * (flux r.2 - flux l.2) / 2.0)%float)
    (zip xs us).

Definition rk4_final (flux : float -> float) (C : float)
  (xs u1 u2 u3 : list float) : list float :=
  stencil fst
    (fun l c r : float * (float * (float * float)) =>
       (c.1 - 0.5 * C
              * ((((1.0 / 6) * (flux r.1 - flux l.1))
                  + ((1.0 / 3) * (flux r.2.1 - flux l.2.1))
                  + ((1.0 / 3) * (flux r.2.2.1 - flux l.2.2.1)))
                 + ((1.0 / 6) * (flux r.2.2.2 - flux l.2.2.2))))%float)
    (zip xs (zip u1 (zip u2 u3))).

(** [ModifiedRungeKutta], lines 639-672: one stage with divisor [k] on
    the array [us] that [U] holds, the four stages in a row, the viscous
    term added after them, and the state the function returns. *)
Definition mrk_stage (flux : float -> float) (C k : float)
  (xs us : list float) : list float :=
  stencil snd
    (fun l c r : float * float =>
       (c.1 - C * (flux r.2 - flux l.2) / k)%float)
    (zip xs us).

Definition mrk_stages (flux : float -> float) (C : float) (xs : list float)
  : list float :=
  mrk_stage flux C 2 xs
    (mrk_stage flux C 4 xs (mrk_stage flux C 6 xs (mrk_stage flux C 8 xs xs))).

Definition diffusion_node (d : float) (ul uc ur : float) : float :=
  (uc + d * (ur - 2.0 * uc + ul))%float.

Definition ModifiedRungeKutta_state (cfg : RunConfig) (C d : float)
  (xs : list float) : list float :=
  if model_is cfg "FO_WAVE" then mrk_stages id C xs
  else if model_is cfg "INV_BURGERS" || model_is cfg "VISC_BURGERS" then
    let u := mrk_stages burgers_flux C xs in
    if model_is cfg "VISC_BURGERS" then stencil id (diffusion_node d) u
    else u
  else xs.

(** [CrankNicolson], line 827: the right-hand side [D[i]] at one interior
    node. *)
Definition CrankNicolson_rhs (C : float) (ul uc ur : float) : float :=
  (- uc + 0.25 * C * (ur - ul))%float.

(** [FirstOrderTVD], lines 972-989, at one interior node, with [calc] the
    value of [CalcUi] on two node values; [tvd_alpha] is the guarded
    quotient of lines 975-983.  [tvd_new] is the same by the index of the
    node. *)
Definition tvd_alpha (dE dU u : float) : float :=
  if PrimFloat.eqb dU 0 then u else (dE / dU)%float.

Definition FirstOrderTVD_value (calc : float -> float -> float) (C : float)
  (ul uc ur : float) : float :=
  let dUiPlus12 := calc ur uc in
  let dUiMinus12 := calc uc ul in
  let alphaiPlus12 :=
    tvd_alpha (ur * ur / 2 - uc * uc / 2) dUiPlus12 uc in
  let alphaiMinus12 :=
    tvd_alpha (uc * uc / 2 - ul * ul / 2) dUiMinus12 uc in
  let phiPlus := (PrimFloat.abs alphaiPlus12 * dUiPlus12)%float in
  let phiMinus := (PrimFloat.abs alphaiMinus12 * dUiMinus12)%float in
  (uc - 0.5 * C * (ur * ur / 2 - ul * ul / 2)
   + 0.5 * C * (phiPlus - phiMinus))%float.

Definition tvd_new (calc : float -> float -> float) (C : float)
  (xs : list float) (i : nat) : float :=
  FirstOrderTVD_value calc C (nth (i - 1) xs 0%float) (nth i xs 0%float)
    (nth (S i) xs 0%float).

(** [FTCS] and [FTBCS], lines 1223-1226 and 1295-1298: the face speed
    [A[i]] at an interior node, and the new value from the nodes that
    pair [Uo] with [A]. *)
Definition face_speed (ul uc ur : float) : float :=
  ((ur * ur / 2 - uc * uc / 2) / (ur - uc))%float.

Definition FTCS_node (C d : float) (l c r : float * float) : float :=
  (c.1 - 0.5 * 0.5 * C * (r.2 + l.2) * (r.1 - l.1)
       + d * (r.1 - 2.0 * c.1 + l.1))%float.

Definition FTBCS_node (C d : float) (l c r : float * float) : float :=
  (c.1 - 0.5 * C * (r.2 + l.2) * (c.1 - l.1)
       + d * (r.1 - 2.0 * c.1 + l.1))%float.

(** Does a divisor [Uo[i+1]-Uo[i]] of the face speeds, [1 <= i <= n-2],
    equal zero? *)
Definition zero_face (xs : list float) : bool :=
  existsb (fun i => PrimFloat.eqb
                      (nth (S (S i)) xs 0 - nth (S i) xs 0)%float 0%float)
    (seq 0 (length xs - 2)).

(** The messages of the two [TypeError]s that [iMax = shapeU] leads to. *)
Definition msg_tuple_minus_int : string :=
  "unsupported operand type(s) for -: 'tuple' and 'int'".
Definition msg_tuple_as_integer : string :=
  "'tuple' object cannot be interpreted as an integer".

(** The schemes written with the windows [1:-1], [2:] and [0:-2] only. *)
Definition slice_schemes : list scheme :=
  [SExplicitFirstUpwind; SLax; SLaxWendroff; SFourthOrderRungeKutta;
   SModifiedRungeKutta; SFTCS; SFTBCS].

(* ================================================================== *)
(** * 7. Reasoning about runs *)
(* ================================================================== *)

Create HintDb heap_pure.
Create HintDb warns_pure.

Section WpRules.
Context {A B : Type}.
Implicit Types (Q : result A -> world -> Prop) (w : world).

Lemma wp_bind (m : M A) (k : A -> M B) (R : result B -> world -> Prop) w :
  wp m (bindpost k R) w -> wp (m ≫= k) R w.
Proof.
  unfold wp, bindpost, mbind, M_bind, bind.
  destruct (m w) as [[a|e] w']; simpl; auto.
Qed.

Lemma wp_ret (a : A) Q w : Q (Ok a) w -> wp (mret a) Q w.
Proof. exact id. Qed.

Lemma wp_raise (e : exn) Q w : Q (Err e) w -> wp (raise e) Q w.
Proof. exact id. Qed.

Lemma wp_lift (r : result A) Q w : Q r w -> wp (lift r) Q w.
Proof. exact id. Qed.

Lemma wp_mono (m : M A) Q Q' w :
  (forall r w', Q r w' -> Q' r w') -> wp m Q w -> wp m Q' w.
Proof. unfold wp; auto. Qed.

End WpRules.

Lemma wp_deref l (Q : result ndarray -> world -> Prop) w :
  match heap w !! l with
  | Some a => Q (Ok a) w
  | None => Q (Err BadReference) w
  end -> wp (deref l) Q w.
Proof. unfold wp, deref. destruct (heap w !! l); auto. Qed.

Lemma wp_alloc a (Q : result loc -> world -> Prop) w :
  Q (Ok (length (heap w))) (World (heap w ++ [a]) (warns w)) ->
  wp (alloc a) Q w.
Proof. exact id. Qed.

Lemma wp_assign l a (Q : result unit -> world -> Prop) w :
  Q (Ok tt) (World (<[l := a]> (heap w)) (warns w)) -> wp (assign l a) Q w.
Proof. exact id. Qed.

Lemma wp_np_div a b (Q : result ndarray -> world -> Prop) w :
  Q (Ok (a / b)%nd)
    (if has_zero b then World (heap w) (DivideByZero :: warns w) else w) ->
  wp (np_div a b) Q w.
Proof. exact id. Qed.

(** The loop rule: an invariant of the worlds between iterations. *)
Lemma wp_for (I : world -> Prop) l body (Q : result unit -> world -> Prop) w :
  I w ->
  (forall i w', In i l -> I w' ->
     wp (body i) (fun r w'' => match r with
                               | Ok _ => I w''
                               | Err e => Q (Err e) w''
                               end) w') ->
  (forall w', I w' -> Q (Ok tt) w') ->
  wp (for_ l body) Q w.
Proof.
  intros HI Hbody Hend. revert w HI.
  induction l as [|i l IH]; intros w HI; simpl.
  - apply wp_ret; auto.
  - apply wp_bind. eapply wp_mono; [|apply (Hbody i w); simpl; auto].
    intros [[]|e] w'; simpl; auto.
    intros HI'. apply IH; auto. intros; apply Hbody; simpl; auto.
Qed.

(* ------------------------------------------------------------------ *)
(** ** Arrays that keep their shape and their two end rows             *)
(* ------------------------------------------------------------------ *)

Lemma same_ends_refl a : same_ends a a.
Proof. repeat split. Qed.

Lemma same_ends_trans a b c : same_ends a b -> same_ends b c -> same_ends a c.
Proof.
  intros (?&?&?) (?&?&?); repeat split; etrans; eauto.
Qed.

Lemma same_ends_length a u :
  same_ends a u -> length (rows_of u) = length (rows_of a).
Proof.
  intros (Hs&_&_). destruct a, u; simpl in *; congruence.
Qed.

(** The window [1:-1] leaves out the first and the last row. *)
Lemma window_mid n :
  window n (Some 1%Z) (Some (-1)%Z) =
  if (n <=? 1)%nat then (n, n) else (1, n - 1)%nat.
Proof.
  unfold window, clamp; simpl from_option.
  destruct (Nat.leb_spec n 1); f_equal; lia.
Qed.

(** The three windows of a stencil hold the same number of rows, so the
    row-by-row operations on them lose nothing. *)
Lemma window_lengths a c r l :
  mid a = Ok c -> fwd a = Ok r -> bwd a = Ok l ->
  length (rows_of c) = length (rows_of a) - 2 /\
  length (rows_of r) = length (rows_of a) - 2 /\
  length (rows_of l) = length (rows_of a) - 2.
Proof.
  destruct a as [x|inner rows]; [discriminate|].
  unfold mid, fwd, bwd, getslice, window, clamp; simpl from_option.
  intros [= <-] [= <-] [= <-]; simpl.
  rewrite !length_take, !length_drop.
  repeat split; lia.
Qed.

Lemma splice_same_ends {A} (rows rv : list A) lo hi :
  (lo = hi /\ rv = []) \/ (1 <= lo /\ hi < length rows) ->
  lo <= hi -> length rv = hi - lo ->
  let rows' := take lo rows ++ rv ++ drop hi rows in
  length rows' = length rows /\ head rows' = head rows /\
  last rows' = last rows.
Proof.
  intros Hc Hle Hlen rows'.
  destruct Hc as [[-> ->]|[Hlo Hhi]].
  { subst rows'. simpl. rewrite take_drop. auto. }
  assert (Hl : length rows' = length rows).
  { subst rows'. rewrite !length_app, length_take, length_drop. lia. }
  split; [exact Hl|]. split.
  - subst rows'. destruct rows as [|x rows]; [simpl in *; lia|].
    destruct lo; [lia|]. reflexivity.
  - rewrite !last_lookup, Hl. subst rows'.
    rewrite lookup_app_r by (rewrite length_take; lia).
    rewrite lookup_app_r by (rewrite length_take; lia).
    rewrite lookup_drop. f_equal. rewrite length_take. lia.
Qed.

Lemma setslice_mid_same_ends a v a' :
  setslice a (Some 1%Z) (Some (-1)%Z) v = Ok a' -> same_ends a a'.
Proof.
  destruct a as [x|inner rows]; unfold setslice; [discriminate|].
  rewrite window_mid.
  destruct (Nat.leb_spec (length rows) 1) as [Hn|Hn]; cbv beta iota;
    (match goal with
     | |- context [(?x =? ?y)%nat] => destruct (Nat.eqb_spec x y) as [Hv|]
     end; [|discriminate]); intros [= <-].
  - destruct (splice_same_ends rows (rows_of v) (length rows) (length rows))
      as (Hl&Hh&Ht); auto.
    { left. split; auto. apply length_zero_iff_nil. lia. }
    repeat split; simpl; auto. f_equal; auto.
  - destruct (splice_same_ends rows (rows_of v) 1 (length rows - 1))
      as (Hl&Hh&Ht); auto; try lia.
    repeat split; simpl; auto. f_equal; auto.
Qed.

Lemma index_nonneg n i k : index n i = Some k -> (0 <= i)%Z -> k = Z.to_nat i /\ k < n.
Proof.
  unfold index. intros H Hi.
  destruct (Z.leb_spec 0 i); [|lia].
  destruct (Z.ltb_spec i (Z.of_nat n)); simpl in H.
  - injection H as <-. lia.
  - destruct (Z.leb_spec (- Z.of_nat n) i), (Z.ltb_spec i 0);
      simpl in H; try discriminate; lia.
Qed.

Lemma getitem_ok_bound a i r :
  getitem a i = Ok r -> (0 <= i)%Z -> (i < Z.of_nat (length (rows_of a)))%Z.
Proof.
  destruct a as [x|inner rows]; simpl; [discriminate|].
  destruct (index (length rows) i) as [k|] eqn:Hk; [|discriminate].
  intros _ Hi. apply index_nonneg in Hk as [-> ?]; lia.
Qed.

Lemma setitem_inner_same_ends a i v a' :
  setitem a i v = Ok a' ->
  (1 <= i)%Z -> (i + 1 < Z.of_nat (length (rows_of a)))%Z ->
  same_ends a a'.
Proof.
  destruct a as [x|inner rows]; simpl; [discriminate|].
  destruct (index (length rows) i) as [k|] eqn:Hk; [|discriminate].
  intros [= <-] Hi1 Hi2. apply index_nonneg in Hk as [-> ?]; [|lia].
  repeat split; simpl.
  - f_equal. apply length_insert.
  - destruct rows as [|x rows]; [reflexivity|].
    destruct (Z.to_nat i) eqn:E; [lia|]. reflexivity.
  - rewrite !last_lookup, length_insert.
    apply list_lookup_insert_ne. lia.
Qed.

(* ------------------------------------------------------------------ *)
(** ** Computations that leave the store of arrays as it is            *)
(* ------------------------------------------------------------------ *)

Lemma heap_pure_ret {A} (a : A) : heap_pure (mret a).
Proof. intros w; reflexivity. Qed.

Lemma heap_pure_raise {A} e : heap_pure (@raise A e).
Proof. intros w; reflexivity. Qed.

Lemma heap_pure_lift {A} (r : result A) : heap_pure (lift r).
Proof. intros w; reflexivity. Qed.

Lemma heap_pure_deref l : heap_pure (deref l).
Proof. intros w; unfold deref; destruct (heap w !! l); reflexivity. Qed.

Lemma heap_pure_np_div a b : heap_pure (np_div a b).
Proof. intros w; unfold np_div; simpl; destruct (has_zero b); reflexivity. Qed.

Lemma heap_pure_bind {A B} (m : M A) (k : A -> M B) :
  heap_pure m -> (forall a, heap_pure (k a)) -> heap_pure (m ≫= k).
Proof.
  intros Hm Hk w. unfold mbind, M_bind, bind.
  specialize (Hm w). destruct (m w) as [[a|e] w']; simpl in *; auto.
  rewrite Hk; auto.
Qed.

Lemma heap_pure_if {A} (b : bool) (m1 m2 : M A) :
  heap_pure m1 -> heap_pure m2 -> heap_pure (if b then m1 else m2).
Proof. destruct b; auto. Qed.

Lemma heap_pure_py_sub a k : heap_pure (py_sub a k).
Proof. destruct a; intros w; reflexivity. Qed.

Lemma heap_pure_py_range a b : heap_pure (py_range a b).
Proof. destruct b; intros w; reflexivity. Qed.

#[local] Hint Resolve heap_pure_ret heap_pure_raise heap_pure_lift
  heap_pure_deref heap_pure_np_div heap_pure_py_sub heap_pure_py_range
  : heap_pure.
#[local] Hint Extern 2 (heap_pure (mbind _ _)) =>
  (apply heap_pure_bind; [|intros ?]) : heap_pure.
#[local] Hint Extern 2 (heap_pure (if _ then _ else _)) =>
  apply heap_pure_if : heap_pure.

Lemma heap_pure_np_shape l : heap_pure (np_shape l).
Proof. unfold np_shape; auto with heap_pure. Qed.

Lemma heap_pure_check_dimension l : heap_pure (check_dimension l).
Proof.
  unfold check_dimension. apply heap_pure_bind; [apply heap_pure_np_shape|].
  intros sh; auto with heap_pure.
Qed.

Lemma heap_pure_np_getslice l s e : heap_pure (np_getslice l s e).
Proof. unfold np_getslice; auto with heap_pure. Qed.

Lemma heap_pure_np_getitem l i : heap_pure (np_getitem l i).
Proof. unfold np_getitem; auto with heap_pure. Qed.

#[local] Hint Resolve heap_pure_np_shape heap_pure_check_dimension
  heap_pure_np_getslice heap_pure_np_getitem : heap_pure.

(* ------------------------------------------------------------------ *)
(** ** The invariant of a scheme's run                                 *)
(* ------------------------------------------------------------------ *)

Section Tracked.

(** The store [h0] at the call, the state [Uo] passed in, its value. *)
Variables (h0 : list ndarray) (Uo : loc) (a0 : ndarray).
Hypothesis HUo : h0 !! Uo = Some a0.

#[local] Abbreviation tracked := (tracked h0 a0).
#[local] Abbreviation err_ok := (err_ok h0).
#[local] Abbreviation kept := (kept h0 a0).
#[local] Abbreviation framed := (framed h0).

Lemma err_ok_framed : err_ok framed.
Proof. intros e w H; exact H. Qed.

Lemma err_ok_kept : err_ok kept.
Proof. intros e w H; split; [exact H|discriminate]. Qed.

Lemma err_ok_bindpost {A B} (k : A -> M B) Q : err_ok Q -> err_ok (bindpost k Q).
Proof. intros H e w Hw; apply H, Hw. Qed.

Lemma tracked_heap ls w w' : heap w' = heap w -> tracked ls w -> tracked ls w'.
Proof. unfold tracked; intros ->; auto. Qed.

Lemma tracked_prefix ls w : tracked ls w -> h0 `prefix_of` heap w.
Proof. intros [H _]; exact H. Qed.

Lemma tracked_Uo ls w : tracked ls w -> heap w !! Uo = Some a0.
Proof. intros [H _]. eapply prefix_lookup_Some; eauto. Qed.

Lemma tracked_kept ls w U : tracked ls w -> U ∈ ls -> kept (Ok (RArray U)) w.
Proof. intros [Hp Hl] HU; split; [exact Hp|]. intros ? [= <-]; auto. Qed.

Lemma tracked_framed ls w r : tracked ls w -> framed r w.
Proof. intros [Hp _]; exact Hp. Qed.

Lemma tracked_pure {A} (m : M A) ls w Q :
  heap_pure m -> tracked ls w -> err_ok Q ->
  (forall a w', tracked ls w' -> Q (Ok a) w') -> wp m Q w.
Proof.
  intros Hm Ht He HQ. unfold wp. specialize (Hm w).
  destruct (m w) as [[a|e] w']; simpl in *.
  - apply HQ. eapply tracked_heap; eauto.
  - apply He. rewrite Hm. eapply tracked_prefix; eauto.
Qed.

Lemma tracked_getitem_Uo j ls w Q :
  tracked ls w -> err_ok Q ->
  (forall r, getitem a0 j = Ok r -> Q (Ok r) w) -> wp (np_getitem Uo j) Q w.
Proof.
  intros Ht He HQ. unfold np_getitem.
  apply wp_bind, wp_deref. rewrite (tracked_Uo _ _ Ht). simpl.
  apply wp_lift. destruct (getitem a0 j) eqn:E; auto.
  apply He. eapply tracked_prefix; eauto.
Qed.

Lemma prefix_app_insert (k : list ndarray) l u :
  length h0 <= l -> h0 `prefix_of` <[l := u]> (h0 ++ k).
Proof.
  intros Hl. rewrite insert_app_r_alt by exact Hl. apply prefix_app_r. done.
Qed.

Lemma tracked_alloc_gen a ls w :
  tracked ls w -> tracked ls (World (heap w ++ [a]) (warns w)).
Proof.
  intros [Hp Hl]; split; simpl.
  - etrans; [exact Hp|]. apply prefix_app_r. done.
  - intros l Hin. destruct (Hl l Hin) as (?&u&Hu&?). split; auto.
    exists u; split; auto. apply lookup_app_l_Some; auto.
Qed.

Lemma tracked_copy ls w Q :
  tracked ls w ->
  (forall U w', tracked (U :: ls) w' -> Q (Ok U) w') -> wp (np_copy Uo) Q w.
Proof.
  intros Ht HQ. unfold np_copy.
  apply wp_bind, wp_deref. rewrite (tracked_Uo _ _ Ht). simpl.
  apply wp_alloc, HQ.
  destruct (tracked_alloc_gen a0 _ _ Ht) as [Hp Hl]. split; [exact Hp|].
  intros l [->|Hin]%elem_of_cons; [|auto]. simpl. split.
  - destruct Ht as [Hp0 _]. apply prefix_length in Hp0. lia.
  - exists a0; split; [|apply same_ends_refl].
    rewrite lookup_app_r by lia. rewrite Nat.sub_diag. reflexivity.
Qed.

Lemma tracked_alloc a ls w Q :
  tracked ls w ->
  (forall U w', tracked ls w' -> Q (Ok U) w') -> wp (alloc a) Q w.
Proof. intros Ht HQ. apply wp_alloc, HQ, tracked_alloc_gen, Ht. Qed.

Lemma tracked_assign ls w l u u' :
  tracked ls w -> l ∈ ls -> heap w !! l = Some u -> same_ends u u' ->
  tracked ls (World (<[l := u']> (heap w)) (warns w)).
Proof.
  intros [Hp Hl] Hin Hu Hs.
  destruct (Hl l Hin) as (Hge&u1&Hu1&Hs1).
  rewrite Hu in Hu1. injection Hu1 as <-.
  split; simpl.
  - destruct Hp as [k ->]. apply prefix_app_insert, Hge.
  - intros l' Hin'. destruct (Hl l' Hin') as (?&u2&Hu2&?). split; auto.
    destruct (decide (l = l')) as [<-|Hne].
    + exists u'. split; [|exact (same_ends_trans _ _ _ Hs1 Hs)].
      apply list_lookup_insert_eq. eapply lookup_lt_Some; eauto.
    + exists u2; split; auto. rewrite list_lookup_insert_ne; auto.
Qed.

Lemma tracked_setmid l v ls w Q :
  tracked ls w -> l ∈ ls -> err_ok Q ->
  (forall w', tracked ls w' -> Q (Ok tt) w') -> wp (np_setmid l v) Q w.
Proof.
  intros Ht Hin He HQ. unfold np_setslice.
  destruct (proj2 Ht l Hin) as (_&u&Hu&_).
  apply wp_bind, wp_deref. rewrite Hu. simpl.
  apply wp_bind, wp_lift.
  destruct (setslice u _ _ v) as [u'|e] eqn:E; simpl.
  - apply wp_assign, HQ. eapply tracked_assign; eauto.
    eapply setslice_mid_same_ends; eauto.
  - apply He. eapply tracked_prefix; eauto.
Qed.

Lemma tracked_setitem l i v ls w Q :
  tracked ls w -> l ∈ ls ->
  (1 <= i)%Z -> (i + 1 < Z.of_nat (length (rows_of a0)))%Z ->
  err_ok Q ->
  (forall w', tracked ls w' -> Q (Ok tt) w') -> wp (np_setitem l i v) Q w.
Proof.
  intros Ht Hin Hi1 Hi2 He HQ. unfold np_setitem.
  destruct (proj2 Ht l Hin) as (_&u&Hu&Hs).
  apply wp_bind, wp_deref. rewrite Hu. simpl.
  apply wp_bind, wp_lift.
  destruct (setitem u i v) as [u'|e] eqn:E; simpl.
  - apply wp_assign, HQ. eapply tracked_assign; eauto.
    eapply setitem_inner_same_ends; eauto.
    rewrite (same_ends_length _ _ Hs). exact Hi2.
  - apply He. eapply tracked_prefix; eauto.
Qed.

Lemma tracked_for ls l body Q w :
  tracked ls w -> err_ok Q ->
  (forall i w', In i l -> tracked ls w' ->
     wp (body i) (fun r w'' => match r with
                               | Ok _ => tracked ls w''
                               | Err _ => h0 `prefix_of` heap w''
                               end) w') ->
  (forall w', tracked ls w' -> Q (Ok tt) w') ->
  wp (for_ l body) Q w.
Proof.
  intros Ht He Hbody HQ.
  apply (wp_for (tracked ls)); auto.
  intros i w' Hi Hw'. eapply wp_mono; [|apply Hbody; auto].
  intros [[]|e] w''; simpl; auto.
Qed.

Lemma err_ok_loop ls :
  err_ok (fun (r : result unit) w'' =>
            match r with
            | Ok _ => tracked ls w''
            | Err _ => h0 `prefix_of` heap w''
            end).
Proof. intros e w H; exact H. Qed.

End Tracked.


Lemma In_zrange i a b : In i (zrange a b) -> (a <= i < b)%Z.
Proof.
  unfold zrange. rewrite in_map_iff. intros (k&<-&Hk%in_seq). lia.
Qed.

Lemma prefix_from_lookup {A} (l1 l2 : list A) :
  (forall i x, l1 !! i = Some x -> l2 !! i = Some x) -> l1 `prefix_of` l2.
Proof.
  revert l2. induction l1 as [|x l1 IH]; intros l2 H.
  - apply prefix_nil.
  - destruct l2 as [|y l2]; [specialize (H 0 x eq_refl); discriminate|].
    pose proof (H 0 x eq_refl) as [= ->].
    apply prefix_cons, IH. intros i z Hz. exact (H (S i) z Hz).
Qed.

Lemma heap_pure_viscous_only cfg : heap_pure (viscous_only cfg).
Proof. unfold viscous_only; auto with heap_pure. Qed.

#[local] Hint Resolve heap_pure_viscous_only : heap_pure.

(** A run that opens with the dimension guard on a name bound to no
    array stops there. *)
Lemma check_dimension_dangling {A} Uo (k : list nat -> M A) w :
  heap w !! Uo = None -> (check_dimension Uo ≫= k) w = (Err BadReference, w).
Proof.
  intros H. unfold check_dimension, np_shape, mbind, M_bind, bind, deref.
  rewrite H. reflexivity.
Qed.

(* ================================================================== *)
(** * 8. Every scheme keeps the arrays of the call and the end rows    *)
(* ================================================================== *)

Ltac solve_elem :=
  solve [repeat first [apply list_elem_of_here | apply list_elem_of_further]].

Ltac solve_err_ok :=
  solve [repeat apply err_ok_bindpost;
         first [apply err_ok_kept | apply err_ok_framed | apply err_ok_loop]].

Ltac enter := unfold bindpost; cbv beta iota zeta.

Ltac solve_bounds :=
  solve [repeat match goal with
                | H : In _ (zrange _ _) |- _ => apply In_zrange in H
                | H : getitem _ _ = Ok _ |- _ =>
                    apply getitem_ok_bound in H; [|lia]
                end; lia].

Ltac fail_here :=
  apply wp_raise; enter;
  lazymatch goal with
  | |- kept _ _ _ _ => apply err_ok_kept
  | |- framed _ _ _ => apply err_ok_framed
  | |- _ => idtac
  end;
  eapply tracked_prefix; eassumption.

(** One step of a run under the invariant [tracked]. *)
Ltac tstep Uo :=
  lazymatch goal with
  | |- tracked _ _ _ _ => eassumption
  | |- context [method_equals_str] => unfold method_equals_str
  | |- wp (mbind _ _) _ _ => apply wp_bind
  | |- wp (if ?b then _ else _) _ _ => destruct b eqn:?
  | |- wp (np_copy Uo) _ _ =>
      eapply tracked_copy; [eassumption|eassumption|intros ? ? ?; enter]
  | |- wp (alloc _) _ _ =>
      eapply tracked_alloc; [eassumption|intros ? ? ?; enter]
  | |- wp (np_setslice _ (Some 1%Z) (Some (-1)%Z) _) _ _ =>
      eapply tracked_setmid;
      [eassumption|solve_elem|solve_err_ok|intros ? ?; enter]
  | |- wp (np_setitem _ _ _) _ _ =>
      eapply tracked_setitem;
      [eassumption|solve_elem|solve_bounds|solve_bounds|solve_err_ok
      |intros ? ?; enter]
  | |- wp (np_getitem Uo _) _ _ =>
      eapply tracked_getitem_Uo;
      [eassumption|eassumption|solve_err_ok|intros ? ?; enter]
  | |- wp (for_ _ _) _ _ =>
      eapply tracked_for;
      [eassumption|solve_err_ok|intros ? ? ? ?|intros ? ?; enter]
  | |- wp (py_sub (PyInt _) _) _ _ => unfold py_sub; apply wp_ret; enter
  | |- wp (py_range _ (PyInt _)) _ _ => unfold py_range; apply wp_ret; enter
  | |- wp (py_sub (PyTuple _) _) _ _ => fail_here
  | |- wp (py_range _ (PyTuple _)) _ _ => fail_here
  | |- wp (raise _) _ _ => fail_here
  | |- wp (mret (RArray _)) _ _ =>
      apply wp_ret; enter;
      first [eapply tracked_kept; [eassumption|solve_elem]
            |eapply tracked_framed; eassumption]
  | |- wp (mret RNone) _ _ =>
      apply wp_ret; enter;
      first [split; [eapply tracked_prefix; eassumption|discriminate]
            |eapply tracked_framed; eassumption]
  | |- wp _ _ _ =>
      eapply tracked_pure;
      [solve [auto with heap_pure]|eassumption|solve_err_ok
      |intros ? ? ?; enter]
  end.

Ltac kept_auto Uo :=
  intros;
  unfold FirstOrderTVD_node;
  unfold face_jacobian, mrk_wave_stage, mrk_burgers_stage, alpha_face;
  repeat tstep Uo.

Section Kept.

Variable CalcUi : ndarray -> ndarray -> ndarray.
Variable TridiagonalSolver :
  pyobj -> list ndarray -> list ndarray -> list ndarray -> list ndarray ->
  loc -> M pyret.
Variable TVDLimiterFunctionOptions : list string.
Variable CalculateTVD :
  Z -> loc -> ndarray -> float -> float -> string -> string ->
  M (ndarray * ndarray).

Variables (h0 : list ndarray) (Uo : loc) (a0 : ndarray).
Hypothesis HUo : h0 !! Uo = Some a0.

Abbreviation tracked' := (tracked h0 a0).
Abbreviation kept' := (kept h0 a0).

Lemma ExplicitFirstUpwind_kept cfg C w :
  tracked' [] w -> wp (ExplicitFirstUpwind cfg Uo C) kept' w.
Proof. unfold ExplicitFirstUpwind. kept_auto Uo. Qed.

Lemma Lax_kept cfg C w : tracked' [] w -> wp (Lax cfg Uo C) kept' w.
Proof. unfold Lax. kept_auto Uo. Qed.

Lemma MidpointLeapfrog_kept cfg C w :
  tracked' [] w -> wp (MidpointLeapfrog cfg Uo C) kept' w.
Proof.
  unfold MidpointLeapfrog. kept_auto Uo.
Qed.

Lemma LaxWendroff_kept cfg C w :
  tracked' [] w -> wp (LaxWendroff cfg Uo C) kept' w.
Proof. unfold LaxWendroff. kept_auto Uo. Qed.

Lemma LaxWendroffMultiStep_kept cfg C w :
  tracked' [] w -> wp (LaxWendroffMultiStep cfg Uo C) kept' w.
Proof. unfold LaxWendroffMultiStep. kept_auto Uo. Qed.

Lemma MacCormack_kept cfg C d w :
  tracked' [] w -> wp (MacCormack cfg Uo C d) kept' w.
Proof. unfold MacCormack. kept_auto Uo. Qed.

Lemma FourthOrderRungeKutta_kept cfg C w :
  tracked' [] w -> wp (FourthOrderRungeKutta cfg Uo C) kept' w.
Proof. unfold FourthOrderRungeKutta. kept_auto Uo. Qed.

Lemma ModifiedRungeKutta_kept cfg C d w :
  tracked' [] w -> wp (ModifiedRungeKutta cfg Uo C d) kept' w.
Proof. unfold ModifiedRungeKutta. kept_auto Uo. Qed.

Lemma solver_prefix n A B C D UU ls w :
  solver_frame TridiagonalSolver -> tracked' ls w -> UU ∈ ls ->
  h0 `prefix_of` heap (TridiagonalSolver n A B C D UU w).2.
Proof.
  intros Hf [Hp Hl] Hin. apply prefix_from_lookup. intros i x Hx.
  apply Hf.
  - apply lookup_lt_Some in Hx. destruct (Hl UU Hin) as [? _]. lia.
  - eapply prefix_lookup_Some; eauto.
Qed.

Lemma solver_framed n A B C D UU ls w :
  solver_frame TridiagonalSolver -> tracked' ls w -> UU ∈ ls ->
  wp (TridiagonalSolver n A B C D UU) (framed h0) w.
Proof. intros. unfold wp, framed. eapply solver_prefix; eauto. Qed.

Lemma solver_kept n A B C D UU ls w :
  solver_frame TridiagonalSolver -> solver_keeps_ends TridiagonalSolver ->
  tracked' ls w -> UU ∈ ls ->
  wp (TridiagonalSolver n A B C D UU) kept' w.
Proof.
  intros Hf Hk Ht Hin. unfold wp. split.
  - eapply solver_prefix; eauto.
  - intros U HU. destruct (proj2 Ht UU Hin) as (Hge&u&Hu&Hs).
    destruct (Hk n A B C D UU w U u HU Hu) as (HUU&u'&Hu'&Hs').
    split.
    + destruct Ht as [Hp%prefix_length _]. lia.
    + exists u'. split; [exact Hu'|]. eapply same_ends_trans; eauto.
Qed.

Lemma EulersBTCS_kept cfg C d w :
  tracked' [] w -> wp (EulersBTCS TridiagonalSolver cfg Uo C d) kept' w.
Proof. unfold EulersBTCS. kept_auto Uo. Qed.

Lemma CrankNicolson_framed cfg C w :
  solver_frame TridiagonalSolver ->
  tracked' [] w -> wp (CrankNicolson TridiagonalSolver cfg Uo C) (framed h0) w.
Proof.
  intros Hf Ht. unfold CrankNicolson.
  repeat lazymatch goal with
         | |- wp (TridiagonalSolver _ _ _ _ _ _) _ _ =>
             eapply solver_framed; [exact Hf|eassumption|solve_elem]
         | |- _ => tstep Uo
         end.
Qed.

Lemma CrankNicolson_kept cfg C w :
  solver_frame TridiagonalSolver -> solver_keeps_ends TridiagonalSolver ->
  tracked' [] w -> wp (CrankNicolson TridiagonalSolver cfg Uo C) kept' w.
Proof.
  intros Hf Hk Ht. unfold CrankNicolson.
  repeat lazymatch goal with
         | |- wp (TridiagonalSolver _ _ _ _ _ _) _ _ =>
             eapply solver_kept; [exact Hf|exact Hk|eassumption|solve_elem]
         | |- _ => tstep Uo
         end.
Qed.

Lemma BeamAndWarming_kept cfg C w :
  tracked' [] w -> wp (BeamAndWarming TridiagonalSolver cfg Uo C) kept' w.
Proof. unfold BeamAndWarming. kept_auto Uo. Qed.

Lemma FirstOrderTVD_kept cfg C w :
  tracked' [] w -> wp (FirstOrderTVD CalcUi cfg Uo C) kept' w.
Proof. unfold FirstOrderTVD. kept_auto Uo. Qed.

Lemma SecondOrderTVD_kept cfg C lf lim eps w :
  tracked' [] w ->
  wp (SecondOrderTVD TVDLimiterFunctionOptions CalculateTVD cfg Uo C lf lim
        eps) kept' w.
Proof. unfold SecondOrderTVD. kept_auto Uo. Qed.

Lemma FTCS_kept cfg C d w : tracked' [] w -> wp (FTCS cfg Uo C d) kept' w.
Proof. unfold FTCS. kept_auto Uo. Qed.

Lemma FTBCS_kept cfg C d w : tracked' [] w -> wp (FTBCS cfg Uo C d) kept' w.
Proof. unfold FTBCS. kept_auto Uo. Qed.

Lemma DuFortFrankel_kept cfg Uo2 C d w :
  tracked' [] w -> wp (DuFortFrankel cfg Uo Uo2 C d) kept' w.
Proof. unfold DuFortFrankel. kept_auto Uo. Qed.

Lemma BTBCS_kept cfg C d acc w :
  tracked' [] w -> wp (BTBCS cfg Uo C d acc) kept' w.
Proof. unfold BTBCS. kept_auto Uo. Qed.

End Kept.

Section Frame.

Variable CalcUi : ndarray -> ndarray -> ndarray.
Variable TridiagonalSolver :
  pyobj -> list ndarray -> list ndarray -> list ndarray -> list ndarray ->
  loc -> M pyret.
Variable TVDLimiterFunctionOptions : list string.
Variable CalculateTVD :
  Z -> loc -> ndarray -> float -> float -> string -> string ->
  M (ndarray * ndarray).

Abbreviation run' :=
  (run CalcUi TridiagonalSolver TVDLimiterFunctionOptions CalculateTVD).

Lemma run_kept s cfg x h0 a0 w :
  solver_frame TridiagonalSolver -> solver_keeps_ends TridiagonalSolver ->
  h0 !! Uo x = Some a0 -> tracked h0 a0 [] w ->
  wp (run' s cfg x) (kept h0 a0) w.
Proof.
  intros Hf Hk H0 Ht. destruct s; simpl.
  - apply ExplicitFirstUpwind_kept; auto.
  - apply Lax_kept; auto.
  - apply MidpointLeapfrog_kept; auto.
  - apply LaxWendroff_kept; auto.
  - apply LaxWendroffMultiStep_kept; auto.
  - apply MacCormack_kept; auto.
  - apply FourthOrderRungeKutta_kept; auto.
  - apply ModifiedRungeKutta_kept; auto.
  - apply EulersBTCS_kept; auto.
  - apply CrankNicolson_kept; auto.
  - apply BeamAndWarming_kept; auto.
  - apply FirstOrderTVD_kept; auto.
  - apply SecondOrderTVD_kept; auto.
  - apply FTCS_kept; auto.
  - apply FTBCS_kept; auto.
  - apply DuFortFrankel_kept; auto.
  - apply BTBCS_kept; auto.
Qed.

Lemma kept_framed h0 a0 r w : kept h0 a0 r w -> framed h0 r w.
Proof. intros [H _]; exact H. Qed.

Lemma run_framed s cfg x h0 a0 w :
  solver_frame TridiagonalSolver ->
  h0 !! Uo x = Some a0 -> tracked h0 a0 [] w ->
  wp (run' s cfg x) (framed h0) w.
Proof.
  intros Hf H0 Ht.
  destruct s; simpl;
    try (eapply CrankNicolson_framed; eauto; fail);
    (eapply wp_mono; [apply (kept_framed h0 a0)|]).
  - apply ExplicitFirstUpwind_kept; auto.
  - apply Lax_kept; auto.
  - apply MidpointLeapfrog_kept; auto.
  - apply LaxWendroff_kept; auto.
  - apply LaxWendroffMultiStep_kept; auto.
  - apply MacCormack_kept; auto.
  - apply FourthOrderRungeKutta_kept; auto.
  - apply ModifiedRungeKutta_kept; auto.
  - apply EulersBTCS_kept; auto.
  - apply BeamAndWarming_kept; auto.
  - apply FirstOrderTVD_kept; auto.
  - apply SecondOrderTVD_kept; auto.
  - apply FTCS_kept; auto.
  - apply FTBCS_kept; auto.
  - apply DuFortFrankel_kept; auto.
  - apply BTBCS_kept; auto.
Qed.

(** Every scheme opens with the dimension guard on [Uo]. *)
Lemma run_dangling s cfg x w :
  heap w !! Uo x = None -> run' s cfg x w = (Err BadReference, w).
Proof.
  intros H. destruct s; simpl; apply check_dimension_dangling; exact H.
Qed.

Lemma tracked_start w a0 : tracked (heap w) a0 [] w.
Proof. split; [reflexivity|]. intros l Hl. inversion Hl. Qed.

(** C9 (copy-on-write).  Whatever the scheme, the model, the arguments
    and the outcome of the call, every array that existed when the scheme
    was called holds the same value after the call: in particular the
    state [Uo] and, for DuFort-Frankel, [Uo2].  The schemes write into
    arrays they have made themselves.  The tridiagonal solver, which is
    not part of this module, is assumed to write to no array but the
    buffer it is given. *)
Theorem schemes_copy_on_write s cfg x w l a :
  solver_frame TridiagonalSolver ->
  heap w !! l = Some a ->
  heap (run' s cfg x w).2 !! l = Some a.
Proof.
  intros Hf Hl.
  destruct (heap w !! Uo x) as [a0|] eqn:HUo.
  - pose proof (run_framed s cfg x (heap w) a0 w Hf HUo
                  (tracked_start w a0)) as H.
    unfold wp, framed in H. eapply prefix_lookup_Some; eauto.
  - rewrite run_dangling by exact HUo. exact Hl.
Qed.

(** C2 (boundary nodes).  When a scheme returns a state, that state has
    the shape of the input state, hence its length, and its first and
    last nodes are those of the input state.  The tridiagonal solver is
    assumed to write to no array but its buffer and to return an array
    with the shape and the end nodes its buffer had. *)
Theorem boundary_nodes_unchanged s cfg x w a U w' :
  solver_frame TridiagonalSolver -> solver_keeps_ends TridiagonalSolver ->
  heap w !! Uo x = Some a ->
  run' s cfg x w = (Ok (RArray U), w') ->
  exists u,
    heap w' !! U = Some u /\
    shape u = shape a /\
    length (rows_of u) = length (rows_of a) /\
    rows_of u !! 0 = rows_of a !! 0 /\
    rows_of u !! (length (rows_of a) - 1) =
      rows_of a !! (length (rows_of a) - 1).
Proof.
  intros Hf Hk HUo Hrun.
  pose proof (run_kept s cfg x (heap w) a w Hf Hk HUo
                (tracked_start w a)) as H.
  unfold wp in H. rewrite Hrun in H. simpl in H.
  destruct H as [_ H]. destruct (H U eq_refl) as (_&u&Hu&Hs).
  exists u. split; [exact Hu|].
  pose proof (same_ends_length _ _ Hs) as Hlen.
  destruct Hs as (Hsh&Hhd&Hlast).
  repeat split; auto.
  - rewrite <- !head_lookup. exact Hhd.
  - rewrite !last_lookup in Hlast. rewrite Hlen in Hlast.
    rewrite <- Nat.sub_1_r in Hlast. exact Hlast.
Qed.

End Frame.

(* ================================================================== *)
(** * 9. What a call raises, and what it returns for a model it does
      not know                                                         *)
(* ================================================================== *)

(** Rules that follow a run step by step from a world whose arrays are
    known. *)
Lemma wp_check_dimension_ok Uo a (Q : result (list nat) -> world -> Prop) w :
  heap w !! Uo = Some a -> length (shape a) <> 2 ->
  Q (Ok (shape a)) w -> wp (check_dimension Uo) Q w.
Proof.
  intros H Hd HQ. unfold check_dimension, np_shape.
  apply wp_bind, wp_bind, wp_deref. rewrite H. simpl.
  apply wp_ret. simpl. destruct (Nat.eqb_spec (length (shape a)) 2); [lia|].
  apply wp_ret, HQ.
Qed.

Lemma check_dimension_2d {A} Uo a (k : list nat -> M A) w :
  heap w !! Uo = Some a -> length (shape a) = 2 ->
  (check_dimension Uo ≫= k) w = (Err (Exception msg_only_1D), w).
Proof.
  intros H Hd. unfold check_dimension, np_shape, mbind, M_bind, bind, deref.
  rewrite H. simpl. rewrite Hd. reflexivity.
Qed.

Lemma wp_np_copy l a (Q : result loc -> world -> Prop) w :
  heap w !! l = Some a ->
  Q (Ok (length (heap w))) (World (heap w ++ [a]) (warns w)) ->
  wp (np_copy l) Q w.
Proof.
  intros H HQ. unfold np_copy. apply wp_bind, wp_deref. rewrite H.
  apply wp_alloc, HQ.
Qed.

Lemma wp_result {A} (m : M A) w r :
  wp m (fun r' _ => r' = r) w -> (m w).1 = r.
Proof. exact id. Qed.

Lemma wp_eq {A} (m : M A) w x :
  wp m (fun r w' => (r, w') = x) w -> m w = x.
Proof. unfold wp. destruct (m w); auto. Qed.

Lemma wp_exists {A} (m : M A) w r (P : world -> Prop) :
  wp m (fun r' w' => r' = r /\ P w') w -> exists w', m w = (r, w') /\ P w'.
Proof.
  unfold wp. destruct (m w) as [r' w']; simpl. intros [-> HP]; eauto.
Qed.

Lemma never_ok_raise {A} e : never_ok (@raise A e).
Proof. intros w; reflexivity. Qed.

Lemma never_ok_bind_l {A B} (m : M A) (k : A -> M B) :
  never_ok m -> never_ok (m ≫= k).
Proof.
  intros Hm w. unfold mbind, M_bind, bind. specialize (Hm w).
  destruct (m w) as [[a|e] w']; simpl in *; auto. discriminate.
Qed.

Lemma never_ok_bind_r {A B} (m : M A) (k : A -> M B) :
  (forall a, never_ok (k a)) -> never_ok (m ≫= k).
Proof.
  intros Hk w. unfold mbind, M_bind, bind.
  destruct (m w) as [[a|e] w']; simpl; auto. apply Hk.
Qed.

Lemma never_ok_py_sub_tuple t k : never_ok (py_sub (PyTuple t) k).
Proof. intros w; reflexivity. Qed.

Lemma never_ok_py_range_tuple a t : never_ok (py_range a (PyTuple t)).
Proof. intros w; reflexivity. Qed.

Lemma model_is_eq cfg m m' :
  upper (Model cfg) = m -> model_is cfg m' = String.eqb m m'.
Proof. unfold model_is; intros ->; reflexivity. Qed.

Lemma model_is_neq cfg m : upper (Model cfg) <> m -> model_is cfg m = false.
Proof. unfold model_is. apply String.eqb_neq. Qed.

Ltac solve_lookup :=
  solve [simpl; repeat first [eassumption | apply lookup_app_l_Some]].

Ltac eval_eqb :=
  repeat match goal with
         | |- context [String.eqb ?a ?b] =>
             let v := eval vm_compute in (String.eqb a b) in
             change (String.eqb a b) with v
         end; cbv beta iota.

(** One step of a run whose arrays and model are known. *)
Ltac xstep :=
  lazymatch goal with
  | |- wp (mbind _ _) _ _ => apply wp_bind
  | |- wp (check_dimension _) _ _ =>
      eapply wp_check_dimension_ok; [solve_lookup|eassumption|enter]
  | |- wp (np_copy _) _ _ => eapply wp_np_copy; [solve_lookup|enter]
  | |- wp (viscous_only _) _ _ => unfold viscous_only
  | |- wp (if model_is ?c ?m then _ else _) _ _ =>
      match goal with
      | H : model_is c m = _ |- _ => rewrite H
      | H : upper (Model c) = _ |- _ =>
          rewrite (model_is_eq _ _ m H); eval_eqb
      end
  | |- wp (if (_ || _)%bool then _ else _) _ _ =>
      match goal with
      | H : model_is _ _ = _ |- _ => rewrite H; cbn [orb]
      end
  | |- wp (raise _) _ _ => apply wp_raise; enter
  | |- wp (mret _) _ _ => apply wp_ret; enter
  end.

Section Outcomes.

Variable CalcUi : ndarray -> ndarray -> ndarray.
Variable TridiagonalSolver :
  pyobj -> list ndarray -> list ndarray -> list ndarray -> list ndarray ->
  loc -> M pyret.
Variable TVDLimiterFunctionOptions : list string.
Variable CalculateTVD :
  Z -> loc -> ndarray -> float -> float -> string -> string ->
  M (ndarray * ndarray).

Abbreviation run'' :=
  (run CalcUi TridiagonalSolver TVDLimiterFunctionOptions CalculateTVD).

(** C5, as the code has it.  A scheme (explicit or not) called on a
    two-dimensional state raises the "only available for 1D" exception
    before anything else happens: no array is made and none is written.
    The guard tests for two dimensions only. *)
Theorem two_dimensional_state_rejected s cfg x w a :
  heap w !! Uo x = Some a -> length (shape a) = 2 ->
  run'' s cfg x w = (Err (Exception msg_only_1D), w).
Proof.
  intros H Hd. destruct s; simpl; eapply check_dimension_2d; eauto.
Qed.




End Outcomes.

(* ================================================================== *)
(** * 10. The characteristic speeds of FirstOrderTVD                   *)
(* ================================================================== *)

(** A value that the test [x == 0] finds nonzero holds no zero. *)
Lemma is_zero_has_zero x b : is_zero x = Ok b -> has_zero x = b.
Proof.
  revert b. induction x as [y|inner rows IH] using ndarray_rows_ind;
    intros b; simpl.
  - intros [= <-]; reflexivity.
  - destruct rows as [|r [|r' rows]]; try discriminate.
    inversion IH as [|? ? Hr _]; subst. intros Hz.
    cbn [existsb]. rewrite (Hr _ Hz). apply orb_false_r.
Qed.

Lemma warns_pure_ret {A} (a : A) : warns_pure (mret a).
Proof. intros w; reflexivity. Qed.

Lemma warns_pure_raise {A} e : warns_pure (@raise A e).
Proof. intros w; reflexivity. Qed.

Lemma warns_pure_lift {A} (r : result A) : warns_pure (lift r).
Proof. intros w; reflexivity. Qed.

Lemma warns_pure_deref l : warns_pure (deref l).
Proof. intros w; unfold deref; destruct (heap w !! l); reflexivity. Qed.

Lemma warns_pure_alloc a : warns_pure (alloc a).
Proof. intros w; reflexivity. Qed.

Lemma warns_pure_assign l a : warns_pure (assign l a).
Proof. intros w; reflexivity. Qed.

Lemma warns_pure_bind {A B} (m : M A) (k : A -> M B) :
  warns_pure m -> (forall a, warns_pure (k a)) -> warns_pure (m ≫= k).
Proof.
  intros Hm Hk w. unfold mbind, M_bind, bind.
  specialize (Hm w). destruct (m w) as [[a|e] w']; simpl in *; auto.
  rewrite Hk; auto.
Qed.

(** After a pure value, only the continuation for that value matters. *)
Lemma warns_pure_lift_bind {A B} (r : result A) (k : A -> M B) :
  (forall a, r = Ok a -> warns_pure (k a)) -> warns_pure (lift r ≫= k).
Proof.
  intros Hk w. unfold mbind, M_bind, bind, lift.
  destruct r as [a|e]; simpl; auto. apply Hk; reflexivity.
Qed.

Lemma warns_pure_if {A} (b : bool) (m1 m2 : M A) :
  warns_pure m1 -> warns_pure m2 -> warns_pure (if b then m1 else m2).
Proof. destruct b; auto. Qed.

Lemma warns_pure_py_sub a k : warns_pure (py_sub a k).
Proof. destruct a; intros w; reflexivity. Qed.

Lemma warns_pure_py_range a b : warns_pure (py_range a b).
Proof. destruct b; intros w; reflexivity. Qed.

Lemma warns_pure_for l body :
  (forall i, warns_pure (body i)) -> warns_pure (for_ l body).
Proof.
  intros H. induction l as [|i l IH]; simpl.
  - apply warns_pure_ret.
  - apply warns_pure_bind; auto.
Qed.

(** A division by a value that holds no zero. *)
Lemma warns_pure_np_div a b : has_zero b = false -> warns_pure (np_div a b).
Proof. intros H w. unfold np_div. rewrite H. reflexivity. Qed.

#[local] Hint Resolve warns_pure_ret warns_pure_raise warns_pure_lift
  warns_pure_deref warns_pure_alloc warns_pure_assign warns_pure_py_sub
  warns_pure_py_range : warns_pure.
#[local] Hint Extern 2 (warns_pure (mbind _ _)) =>
  (apply warns_pure_bind; [|intros ?]) : warns_pure.
#[local] Hint Extern 2 (warns_pure (if _ then _ else _)) =>
  apply warns_pure_if : warns_pure.

Lemma warns_pure_check_dimension l : warns_pure (check_dimension l).
Proof. unfold check_dimension, np_shape; auto 10 with warns_pure. Qed.

Lemma warns_pure_np_copy l : warns_pure (np_copy l).
Proof. unfold np_copy; auto with warns_pure. Qed.

Lemma warns_pure_np_getitem l i : warns_pure (np_getitem l i).
Proof. unfold np_getitem; auto with warns_pure. Qed.

Lemma warns_pure_np_setitem l i v : warns_pure (np_setitem l i v).
Proof. unfold np_setitem; auto 10 with warns_pure. Qed.

#[local] Hint Resolve warns_pure_check_dimension warns_pure_np_copy
  warns_pure_np_getitem warns_pure_np_setitem : warns_pure.

(** The speed at a face is computed without a division by zero. *)
Lemma warns_pure_alpha_face Uo E i hi lo dU :
  warns_pure (alpha_face Uo E i hi lo dU).
Proof.
  unfold alpha_face. apply warns_pure_lift_bind. intros z Hz.
  destruct z; [auto with warns_pure|].
  apply is_zero_has_zero in Hz.
  repeat (apply warns_pure_bind; [auto with warns_pure|intros ?]).
  apply warns_pure_np_div, Hz.
Qed.

#[local] Hint Resolve warns_pure_alpha_face : warns_pure.

Lemma wp_np_getitem l i a (Q : result ndarray -> world -> Prop) w :
  heap w !! l = Some a -> Q (getitem a i) w -> wp (np_getitem l i) Q w.
Proof.
  intros H HQ. unfold np_getitem. apply wp_bind, wp_deref. rewrite H.
  exact HQ.
Qed.

Lemma wp_np_setitem l i v a (Q : result unit -> world -> Prop) w :
  heap w !! l = Some a ->
  match setitem a i v with
  | Ok a' => Q (Ok tt) (World (<[l := a']> (heap w)) (warns w))
  | Err e => Q (Err e) w
  end -> wp (np_setitem l i v) Q w.
Proof.
  intros H HQ. unfold np_setitem. apply wp_bind, wp_deref. rewrite H.
  simpl. apply wp_bind, wp_lift. destruct (setitem a i v); simpl; auto.
Qed.

Lemma alpha_face_spec Uo E i hi lo dU a u_i e_hi e_lo
  (Q : result ndarray -> world -> Prop) w :
  heap w !! Uo = Some a ->
  getitem a i = Ok u_i -> getitem E hi = Ok e_hi -> getitem E lo = Ok e_lo ->
  Q (Ok (alpha_spec (e_hi - e_lo)%nd dU u_i)) w ->
  wp (alpha_face Uo E i hi lo (Scalar dU)) Q w.
Proof.
  intros H Hi Hhi Hlo HQ. unfold alpha_face, alpha_spec in *.
  apply wp_bind, wp_lift. simpl.
  destruct (PrimFloat.eqb dU 0) eqn:Hz.
  - eapply wp_np_getitem; [exact H|]. rewrite Hi. exact HQ.
  - apply wp_bind, wp_lift. rewrite Hhi. simpl.
    apply wp_bind, wp_lift. rewrite Hlo. simpl.
    apply wp_np_div. simpl. rewrite Hz. exact HQ.
Qed.


(* ================================================================== *)
(** * 11. The Thomas solver meets what the schemes need               *)
(* ================================================================== *)

Lemma length_forward_elimination rows c d :
  length (forward_elimination rows c d) = length rows.
Proof.
  revert c d. induction rows as [|[[[a b] c0] d0] rows IH]; intros c d;
    simpl; auto.
Qed.

Lemma length_back_substitution cd u :
  length (back_substitution cd u) = length cd.
Proof.
  unfold back_substitution. induction cd as [|[c d] cd IH]; simpl; auto.
Qed.

Lemma ThomasSolver_frame : solver_frame ThomasSolver.
Proof.
  intros n A B C D UU w l a Hne Hl. unfold ThomasSolver.
  destruct n as [z|t]; [|exact Hl].
  unfold mbind, M_bind, bind, deref.
  destruct (heap w !! UU) as [[x|inner rows]|]; simpl; try exact Hl.
  destruct (Z.to_nat z <=? 2)%nat; simpl; [exact Hl|].
  match goal with |- context [if ?b then _ else _] => destruct b end;
    simpl; [|exact Hl].
  rewrite list_lookup_insert_ne by auto. exact Hl.
Qed.

Lemma ThomasSolver_keeps_ends : solver_keeps_ends ThomasSolver.
Proof.
  intros n A B C D UU w U u Hr Hu. revert Hr. unfold ThomasSolver.
  destruct n as [z|t]; [|discriminate].
  unfold mbind, M_bind, bind, deref. rewrite Hu.
  destruct u as [x|inner rows]; simpl; [discriminate|].
  destruct (Nat.leb_spec (Z.to_nat z) 2) as [Hm|Hm]; simpl.
  { intros [= <-]. split; [auto|]. exists (Array inner rows).
    split; [exact Hu|apply same_ends_refl]. }
  match goal with
  | |- context [if ?b then _ else _] => destruct b eqn:Hb
  end; simpl; [|discriminate].
  intros [= <-]. split; [auto|].
  repeat (apply andb_prop in Hb as [Hb ?]).
  repeat match goal with
         | H : (_ <=? _)%nat = true |- _ => apply Nat.leb_le in H
         end.
  eexists. split.
  { apply list_lookup_insert_eq. eapply lookup_lt_Some; eauto. }
  match goal with
  | |- same_ends _ (Array _ (take 1 rows ++ ?sol ++ drop ?hi rows)) =>
      destruct (splice_same_ends rows sol 1 hi) as (Hl&Hh&Ht)
  end.
  - right. lia.
  - lia.
  - rewrite length_back_substitution, length_forward_elimination.
    rewrite length_take, length_drop, !length_zip. lia.
  - repeat split; simpl; auto. f_equal; auto.
Qed.

(* ================================================================== *)
(** * 12. Concrete runs                                                *)
(* ================================================================== *)

(** C3.  On the state [[0, 1, 2, 1, 0]] with Courant number 0.5, the wave
    model and speed 1, the two upwind factors are [positive_a = 2] and
    [negative_a = 0] (the stencil is taken fully from the left), and
    [ExplicitFirstUpwind] returns a new array holding exactly
    [[0, 0.5, 1.5, 1.5, 0]]; the input array is as it was. *)
Theorem ExplicitFirstUpwind_scenario :
  (1 + sign (conv cfg_wave) = 2)%float /\
  (1 - sign (conv cfg_wave) = 0)%float /\
  ExplicitFirstUpwind cfg_wave 0 0.5 world_01210 =
    (Ok (RArray 1),
     World [state_01210; vec [0; 0.5; 1.5; 1.5; 0]%float] []).
Proof. repeat split; vm_compute; reflexivity. Qed.

(** C1 at a uniform state.  [FTCS] turns the uniform state [[1, 1, 1, 1]]
    into [[1, nan, nan, 1]]: the face Jacobian is the quotient 0/0 of two
    zero differences, taken with a warning and no test of the divisor.
    [EulersBTCS] returns no state at all for the wave model: it stops on
    [range(iMax)] with [iMax] bound to the shape tuple. *)
Theorem FTCS_loses_uniform_state :
  FTCS cfg_viscous 0 0.5 0.125 (World [uniform_1111] []) =
    (Ok (RArray 1),
     World [uniform_1111; vec [1; nan; nan; 1]%float;
            vec [1; nan; nan; 1]%float] [DivideByZero]) /\
  forall solver,
    EulersBTCS solver cfg_wave 0 0.5 0.125 (World [uniform_1111] []) =
      (Err (TypeError "'tuple' object cannot be interpreted as an integer"),
       World [uniform_1111; uniform_1111] []).
Proof. split; [|intros solver]; vm_compute; reflexivity. Qed.



(** C5, the claim as stated fails: a state of three dimensions passes
    the guard, and the scheme computes on it along its first axis. *)
Lemma three_dimensional_state_accepted :
  shape state_3d = [3; 1; 1] /\
  ExplicitFirstUpwind cfg_wave 0 0.5 (World [state_3d] []) =
    (Ok (RArray 1),
     World [state_3d; Array [1; 1] [cell 0; cell 0.5; cell 0.5]] []).
Proof. split; vm_compute; reflexivity. Qed.

Lemma two_dimensional_state_witness :
  run_with_thomas SLax cfg_wave call_args (World [state_2d] []) =
    (Err (Exception msg_only_1D), World [state_2d] []).
Proof.
  apply (two_dimensional_state_rejected CalcUi_difference ThomasSolver
           no_limiter_options CalculateTVD_zero SLax cfg_wave call_args
           (World [state_2d] []) state_2d); reflexivity.
Defined.





(** C8 at call time.  Read as the tables they were meant to be, the
    statements of [BTBCS] turn down "second-order" and "third-order" with
    the exception for an invalid accuracy, as they do any other string:
    only "first-order" selects a table, and that call stops on the
    unbound name [A].  No call returns, whatever its arguments, and the
    tridiagonal solver is never called ([BTBCS] does not depend on it). *)
Theorem BTBCS_rejects_every_accuracy :
  BTBCS cfg_viscous 0 0.5 0.125 "second-order" world_01210 =
    (Err (Exception msg_accuracy), world_01210) /\
  BTBCS cfg_viscous 0 0.5 0.125 "third-order" world_01210 =
    (Err (Exception msg_accuracy), world_01210) /\
  BTBCS cfg_viscous 0 0.5 0.125 "first-order" world_01210 =
    (Err (NameError "A"), World [state_01210] [DivideByZero]) /\
  forall cfg Uo C d acc w, is_ok (BTBCS cfg Uo C d acc w).1 = false.
Proof.
  repeat split; try (vm_compute; reflexivity).
  intros cfg Uo C d acc. change (never_ok (BTBCS cfg Uo C d acc)).
  unfold BTBCS. repeat (apply never_ok_bind_r; intros ?).
  apply never_ok_raise.
Qed.

Lemma boundary_nodes_witness :
  exists u,
    heap (run_with_thomas SCrankNicolson cfg_wave call_args world_01210).2
      !! 2 = Some u /\
    shape u = shape state_01210 /\
    length (rows_of u) = length (rows_of state_01210) /\
    rows_of u !! 0 = rows_of state_01210 !! 0 /\
    rows_of u !! (length (rows_of state_01210) - 1) =
      rows_of state_01210 !! (length (rows_of state_01210) - 1).
Proof.
  apply (boundary_nodes_unchanged CalcUi_difference ThomasSolver
           no_limiter_options CalculateTVD_zero SCrankNicolson cfg_wave
           call_args world_01210 state_01210 2 _
           ThomasSolver_frame ThomasSolver_keeps_ends eq_refl).
  vm_compute. reflexivity.
Defined.

Lemma copy_on_write_witness :
  heap (run_with_thomas SCrankNicolson cfg_wave call_args world_01210).2
    !! 0 = Some state_01210.
Proof.
  apply (schemes_copy_on_write CalcUi_difference ThomasSolver
           no_limiter_options CalculateTVD_zero SCrankNicolson cfg_wave
           call_args world_01210 0 state_01210 ThomasSolver_frame).
  reflexivity.
Defined.


(** ** Further runs                                                    *)

Lemma window_lengths_witness :
  length (rows_of (vec [1; 2; 1]%float)) = length (rows_of state_01210) - 2 /\
  length (rows_of (vec [2; 1; 0]%float)) = length (rows_of state_01210) - 2 /\
  length (rows_of (vec [0; 1; 2]%float)) = length (rows_of state_01210) - 2.
Proof.
  apply (window_lengths state_01210 (vec [1; 2; 1]%float)
           (vec [2; 1; 0]%float) (vec [0; 1; 2]%float));
    reflexivity.
Defined.

(** [DuFortFrankel] and [SecondOrderTVD] return nothing, whatever their
    arguments and whatever the collaborators: each call ends in an
    exception, at the latest on the loop bound computed from the shape
    tuple ([iMax = shapeU]). *)
Theorem DuFortFrankel_and_SecondOrderTVD_never_return :
  (forall cfg Uo Uo2 C d, never_ok (DuFortFrankel cfg Uo Uo2 C d)) /\
  (forall options tvd cfg Uo C lf lim eps,
     never_ok (SecondOrderTVD options tvd cfg Uo C lf lim eps)).
Proof.
  split; intros; unfold DuFortFrankel, SecondOrderTVD;
    repeat first
      [ apply never_ok_bind_l;
        solve [apply never_ok_py_range_tuple | apply never_ok_py_sub_tuple]
      | apply never_ok_bind_r; intros ? ].
Qed.

(* ================================================================== *)
(** * 13. State vectors node by node                                   *)
(* ================================================================== *)

(** The array operations of the schemes on a state vector, brought to
    the values at the nodes. *)

Lemma length_tabulate n g : length (tabulate n g) = n.
Proof. unfold tabulate. rewrite length_map, length_seq. reflexivity. Qed.

Lemma lookup_tabulate n g i : i < n -> tabulate n g !! i = Some (g i).
Proof.
  intros Hi. unfold tabulate. change (map g ?l) with (g <$> l).
  rewrite list_lookup_fmap, lookup_seq_lt by lia. reflexivity.
Qed.

Lemma nth_tabulate n g k : k < n -> nth k (tabulate n g) 0%float = g k.
Proof. intros Hk. apply nth_lookup_Some. apply lookup_tabulate. exact Hk. Qed.

Lemma lookup_nth (us : list float) i :
  i < length us -> us !! i = Some (nth i us 0%float).
Proof.
  intros Hi. destruct (lookup_lt_is_Some_2 us i Hi) as [x Hx].
  rewrite Hx. f_equal. symmetry.
  apply nth_lookup_Some with (d := 0%float) in Hx. exact Hx.
Qed.

(** Every vector is the table of its nodes. *)
Lemma tabulate_nth us :
  us = tabulate (length us) (fun i => nth i us 0%float).
Proof.
  apply list_eq. intros i. destruct (decide (i < length us)) as [Hi|Hi].
  - rewrite lookup_tabulate, lookup_nth by lia. reflexivity.
  - rewrite !lookup_ge_None_2; auto; rewrite ?length_tabulate; lia.
Qed.

Lemma length_vec xs : length (rows_of (vec xs)) = length xs.
Proof. simpl. apply length_map. Qed.

Lemma rows_of_vec xs : rows_of (vec xs) = map Scalar xs.
Proof. reflexivity. Qed.

Lemma length_shape_vec xs : length (shape (vec xs)) <> 2.
Proof. simpl. lia. Qed.

(** ** The three windows                                               *)

Lemma tabulate_window n g lo k :
  lo + k <= n ->
  take k (drop lo (map Scalar (tabulate n g))) =
  map Scalar (tabulate k (fun i => g (lo + i))).
Proof.
  intros H. unfold tabulate.
  rewrite !skipn_map, !firstn_map. f_equal.
  rewrite drop_seq, take_seq. simpl.
  assert (E : k `min` (n - lo) = k) by lia. rewrite E.
  rewrite <- (Nat.add_0_r lo) at 1.
  rewrite <- fmap_add_seq. change (?f <$> ?l) with (map f l).
  rewrite map_map. reflexivity.
Qed.

Lemma window_fwd n : window n (Some 2%Z) None = (Nat.min 2 n, n).
Proof.
  unfold window, clamp; simpl from_option.
  change (2 <? 0)%Z with false. cbv iota. f_equal; lia.
Qed.

Lemma window_bwd n : window n (Some 0%Z) (Some (-2)%Z) = (0, n - 2).
Proof.
  unfold window, clamp; simpl from_option.
  change (0 <? 0)%Z with false. change (-2 <? 0)%Z with true.
  cbv iota. f_equal; lia.
Qed.

Lemma mid_tabulate n g :
  mid (vec (tabulate n g)) = Ok (vec (tabulate (n - 2) (fun i => g (S i)))).
Proof.
  unfold mid, vec, getslice. rewrite length_map, length_tabulate, window_mid.
  destruct (Nat.leb_spec n 1).
  - replace (n - 2) with 0 by lia. rewrite Nat.sub_diag. reflexivity.
  - rewrite tabulate_window by lia. replace (n - 1 - 1) with (n - 2) by lia.
    reflexivity.
Qed.

Lemma fwd_tabulate n g :
  fwd (vec (tabulate n g)) = Ok (vec (tabulate (n - 2) (fun i => g (S (S i))))).
Proof.
  unfold fwd, vec, getslice. rewrite length_map, length_tabulate, window_fwd.
  destruct (Nat.leb_spec n 1).
  - replace (n - 2) with 0 by lia. replace (n - 2 `min` n) with 0 by lia.
    reflexivity.
  - replace (2 `min` n) with 2 by lia. rewrite tabulate_window by lia.
    reflexivity.
Qed.

Lemma bwd_tabulate n g :
  bwd (vec (tabulate n g)) = Ok (vec (tabulate (n - 2) g)).
Proof.
  unfold bwd, vec, getslice. rewrite length_map, length_tabulate, window_bwd.
  rewrite Nat.sub_0_r, tabulate_window by lia. reflexivity.
Qed.

Lemma mid_vec us :
  mid (vec us) =
  Ok (vec (tabulate (length us - 2) (fun i => nth (S i) us 0%float))).
Proof. rewrite (tabulate_nth us) at 1. apply mid_tabulate. Qed.

Lemma fwd_vec us :
  fwd (vec us) =
  Ok (vec (tabulate (length us - 2) (fun i => nth (S (S i)) us 0%float))).
Proof. rewrite (tabulate_nth us) at 1. apply fwd_tabulate. Qed.

Lemma bwd_vec us :
  bwd (vec us) =
  Ok (vec (tabulate (length us - 2) (fun i => nth i us 0%float))).
Proof. rewrite (tabulate_nth us) at 1. apply bwd_tabulate. Qed.

(** ** Element-wise operations                                         *)

Lemma bop_SS f a b : bop f (Scalar a) (Scalar b) = Scalar (f a b).
Proof. reflexivity. Qed.

Lemma bop_SV f a n g :
  bop f (Scalar a) (vec (tabulate n g)) = vec (tabulate n (fun i => f a (g i))).
Proof. unfold vec, tabulate. simpl. rewrite !map_map. reflexivity. Qed.

Lemma bop_VS f n g b :
  bop f (vec (tabulate n g)) (Scalar b) = vec (tabulate n (fun i => f (g i) b)).
Proof. unfold vec, tabulate. simpl. rewrite !map_map. reflexivity. Qed.

Lemma bop_VV f n g h :
  bop f (vec (tabulate n g)) (vec (tabulate n h)) =
  vec (tabulate n (fun i => f (g i) (h i))).
Proof.
  unfold vec, tabulate. simpl. f_equal. rewrite !map_map.
  induction (seq 0 n) as [|i l IH]; simpl; [reflexivity|].
  rewrite IH. reflexivity.
Qed.

Lemma nd_map_V f n g :
  nd_map f (vec (tabulate n g)) = vec (tabulate n (fun i => f (g i))).
Proof. unfold vec, tabulate. simpl. rewrite !map_map. reflexivity. Qed.

Lemma has_zero_tabulate n g :
  has_zero (vec (tabulate n g)) =
  existsb (fun i => PrimFloat.eqb (g i) 0%float) (seq 0 n).
Proof.
  unfold vec, tabulate. simpl. rewrite map_map.
  induction (seq 0 n) as [|i l IH]; simpl; [reflexivity|]. rewrite IH.
  reflexivity.
Qed.

(** ** Stencils                                                        *)

Lemma lookup_stencil {A} keep f (zs : list A) i :
  stencil keep f zs !! i =
  match zs !! i with
  | None => None
  | Some z => Some match i with
                   | 0 => keep z
                   | S j => match zs !! j, zs !! S i with
                            | Some l, Some r => f l z r
                            | _, _ => keep z
                            end
                   end
  end.
Proof.
  unfold stencil. rewrite list_lookup_imap. destruct (zs !! i); reflexivity.
Qed.

Lemma length_stencil {A} keep f (zs : list A) :
  length (stencil keep f zs) = length zs.
Proof. apply length_imap. Qed.

(** A stencil that keeps every node. *)
Lemma stencil_keep {A} (keep : A -> float) (zs : list A) :
  stencil keep (fun _ c _ => keep c) zs = map keep zs.
Proof.
  apply list_eq. intros i. rewrite lookup_stencil.
  change (map keep zs) with (keep <$> zs). rewrite list_lookup_fmap.
  destruct (zs !! i) as [z|]; [|reflexivity]. simpl.
  destruct i; [reflexivity|]. destruct (zs !! i), (zs !! S (S i)); reflexivity.
Qed.

Lemma stencil_centre (xs : list float) :
  stencil id (fun _ c _ => c) xs = xs.
Proof. rewrite (stencil_keep id). apply map_id. Qed.

(** Up to two nodes have no node in between. *)
Lemma stencil_short {A} (keep : A -> float) f (zs : list A) :
  length zs <= 2 -> stencil keep f zs = map keep zs.
Proof.
  intros Hn. apply list_eq. intros i. rewrite lookup_stencil.
  change (map keep zs) with (keep <$> zs). rewrite list_lookup_fmap.
  destruct (zs !! i) as [z|] eqn:Hz; [|reflexivity].
  apply lookup_lt_Some in Hz. cbn [fmap option_fmap option_map]. f_equal.
  destruct i as [|j]; [reflexivity|].
  rewrite (lookup_ge_None_2 zs (S (S j))) by lia.
  destruct (zs !! j); reflexivity.
Qed.

(** The interior of [us] replaced by the values [v 0 .. v (n-3)]. *)
Lemma splice_stencil {A} (keep : A -> float) f (zs : list A) us v :
  length us = length zs -> 2 <= length us ->
  (forall i z, zs !! i = Some z -> nth i us 0%float = keep z) ->
  (forall i l c r, zs !! i = Some l -> zs !! S i = Some c ->
                   zs !! S (S i) = Some r -> v i = f l c r) ->
  take 1 us ++ tabulate (length us - 2) v ++ drop (length us - 1) us =
  stencil keep f zs.
Proof.
  intros Hlen Hn Hkeep Hv.
  apply list_eq. intros i. rewrite lookup_stencil.
  destruct (zs !! i) as [z|] eqn:Hz.
  - assert (Hi : i < length us) by (apply lookup_lt_Some in Hz; lia).
    destruct i as [|j].
    + rewrite lookup_app_l by (rewrite length_take; lia).
      rewrite lookup_take_lt by lia. rewrite lookup_nth by lia. f_equal; eauto.
    + rewrite lookup_app_r by (rewrite length_take; lia).
      rewrite length_take. replace (1 `min` length us) with 1 by lia.
      simpl. rewrite Nat.sub_0_r.
      destruct (decide (j < length us - 2)) as [Hj|Hj].
      * rewrite lookup_app_l by (rewrite length_tabulate; lia).
        rewrite lookup_tabulate by lia.
        destruct (lookup_lt_is_Some_2 zs j) as [l Hl]; [lia|].
        destruct (lookup_lt_is_Some_2 zs (S (S j))) as [r Hr]; [lia|].
        rewrite Hl, Hr. f_equal. eauto.
      * rewrite lookup_app_r by (rewrite length_tabulate; lia).
        rewrite length_tabulate, lookup_drop.
        replace (length us - 1 + (j - (length us - 2))) with (S j) by lia.
        rewrite lookup_nth by lia.
        rewrite (lookup_ge_None_2 zs (S (S j))) by lia.
        destruct (zs !! j); f_equal; eauto.
  - apply lookup_ge_None_2. apply lookup_ge_None_1 in Hz.
    rewrite !length_app, length_take, length_drop, length_tabulate. lia.
Qed.

(** [U[1:-1] = v] on a vector [us], seen node by node. *)
Lemma setmid_stencil {A} (keep : A -> float) f (zs : list A) us v :
  length us = length zs ->
  (forall i z, zs !! i = Some z -> nth i us 0%float = keep z) ->
  (forall i l c r, zs !! i = Some l -> zs !! S i = Some c ->
                   zs !! S (S i) = Some r -> v i = f l c r) ->
  setslice (vec us) (Some 1%Z) (Some (-1)%Z)
    (vec (tabulate (length us - 2) v)) = Ok (vec (stencil keep f zs)).
Proof.
  intros Hlen Hkeep Hv. unfold setslice, vec at 1.
  rewrite length_map, window_mid, length_vec, length_tabulate.
  destruct (Nat.leb_spec (length us) 1) as [Hn|Hn].
  - replace (length us - 2) with 0 by lia. rewrite Nat.sub_diag. simpl.
    rewrite firstn_all2, skipn_all2 by (rewrite length_map; lia).
    rewrite app_nil_r. unfold vec. do 3 f_equal.
    rewrite stencil_short by lia. apply list_eq. intros i.
    change (map keep zs) with (keep <$> zs). rewrite list_lookup_fmap.
    destruct (zs !! i) as [z|] eqn:Hz.
    + pose proof (lookup_lt_Some _ _ _ Hz) as Hz'.
      rewrite lookup_nth by lia. simpl. f_equal. eauto.
    + apply lookup_ge_None_2. apply lookup_ge_None_1 in Hz. lia.
  - replace (length us - 1 - 1) with (length us - 2) by lia.
    rewrite Nat.eqb_refl. unfold vec. do 2 f_equal.
    cbn [rows_of]. rewrite firstn_map, skipn_map, <- !map_app. f_equal.
    apply splice_stencil; auto; lia.
Qed.

(** A list that holds [z0] at both ends and [v] in between. *)
Lemma stencil_fixed_ends {A} (z0 : float) f (zs : list A) v :
  2 <= length zs ->
  (forall i l c r, zs !! i = Some l -> zs !! S i = Some c ->
                   zs !! S (S i) = Some r -> v i = f l c r) ->
  z0 :: tabulate (length zs - 2) v ++ [z0] = stencil (fun _ => z0) f zs.
Proof.
  intros Hn Hv.
  rewrite <- (splice_stencil (fun _ => z0) f zs
                (replicate (length zs) z0) v); rewrite ?length_replicate; auto.
  - rewrite take_replicate, drop_replicate.
    replace (1 `min` length zs) with 1 by lia.
    replace (length zs - (length zs - 1)) with 1 by lia. reflexivity.
  - intros i z Hz. apply lookup_lt_Some in Hz.
    apply nth_lookup_Some. apply lookup_replicate_2. exact Hz.
Qed.

Lemma map_fst_zip {A B} (xs : list A) (ys : list B) :
  length xs <= length ys -> map fst (zip xs ys) = xs.
Proof. apply fst_zip. Qed.

Lemma map_snd_zip {A B} (xs : list A) (ys : list B) :
  length ys <= length xs -> map snd (zip xs ys) = ys.
Proof. apply snd_zip. Qed.

(** ** The state of a loop over the nodes                              *)

Ltac case_bounds :=
  repeat match goal with
         | |- context [(?a <=? ?b)] => destruct (Nat.leb_spec a b)
         | |- context [(?a <? ?b)] => destruct (Nat.ltb_spec a b)
         end;
  simpl; try reflexivity; try lia.

Lemma length_loop_state k F xs : length (loop_state k F xs) = length xs.
Proof. apply length_imap. Qed.

Lemma lookup_loop_state k F xs i :
  loop_state k F xs !! i =
  (fun x => if (1 <=? i) && (i <? k) then F i else x) <$> xs !! i.
Proof. apply list_lookup_imap. Qed.

Lemma loop_state_start F xs : loop_state 1 F xs = xs.
Proof.
  apply list_eq. intros i. rewrite lookup_loop_state.
  destruct (xs !! i); [|reflexivity]. case_bounds.
Qed.

(** One more node written. *)
Lemma loop_state_insert k F xs :
  1 <= k -> <[k := F k]> (loop_state k F xs) = loop_state (S k) F xs.
Proof.
  intros Hk. apply list_eq. intros i. rewrite !lookup_loop_state.
  destruct (decide (i = k)) as [->|Hne].
  - destruct (decide (k < length xs)).
    + rewrite list_lookup_insert_eq by (rewrite length_loop_state; lia).
      rewrite lookup_nth by lia. case_bounds.
    + rewrite list_insert_ge by (rewrite length_loop_state; lia).
      rewrite lookup_loop_state. rewrite lookup_ge_None_2 by lia.
      reflexivity.
  - rewrite list_lookup_insert_ne by auto. rewrite lookup_loop_state.
    destruct (xs !! i); [|reflexivity]. case_bounds.
Qed.

Lemma nth_loop_state k F xs i :
  i < length xs ->
  nth i (loop_state k F xs) 0%float =
  if (1 <=? i) && (i <? k) then F i else nth i xs 0%float.
Proof.
  intros Hi. apply nth_lookup_Some. rewrite lookup_loop_state.
  rewrite lookup_nth by lia. reflexivity.
Qed.

(** The nodes [1 .. m-2] written by a loop with bound [m], seen as a
    stencil over the first [m] nodes. *)
Lemma loop_state_stencil {A} (keep : A -> float) f (zs : list A) F xs m :
  length zs = length xs ->
  m <= length xs \/ m <= 2 ->
  (forall i z, zs !! i = Some z -> keep z = nth i xs 0%float) ->
  (forall i l c r, S (S i) < m ->
     zs !! i = Some l -> zs !! S i = Some c -> zs !! S (S i) = Some r ->
     F (S i) = f l c r) ->
  loop_state (1 + (m - 2)) F xs = stencil keep f (take m zs) ++ drop m xs.
Proof.
  intros Hlen Hm Hkeep HF. apply list_eq. intros i.
  rewrite lookup_loop_state.
  destruct (decide (i < m `min` length xs)) as [Hi|Hi].
  - rewrite lookup_app_l by (rewrite length_stencil, length_take; lia).
    rewrite lookup_stencil, lookup_take_lt by lia.
    rewrite lookup_nth by lia.
    destruct (lookup_lt_is_Some_2 zs i) as [z Hz]; [lia|]. rewrite Hz.
    cbn [fmap option_fmap option_map]. f_equal.
    destruct i as [|j].
    + rewrite (Hkeep 0 z Hz). case_bounds.
    + destruct (decide (S (S j) < m `min` length xs)) as [Hj|Hj].
      * rewrite !lookup_take_lt by lia.
        destruct (lookup_lt_is_Some_2 zs j) as [l Hl]; [lia|].
        destruct (lookup_lt_is_Some_2 zs (S (S j))) as [r Hr]; [lia|].
        rewrite Hl, Hr. rewrite (HF j l z r) by (auto; lia). case_bounds.
      * rewrite (proj2 (lookup_ge_None (take m zs) (S (S j))))
          by (rewrite length_take; lia).
        rewrite (Hkeep _ z Hz).
        destruct (take m zs !! j); case_bounds.
  - rewrite lookup_app_r by (rewrite length_stencil, length_take; lia).
    rewrite length_stencil, length_take, lookup_drop.
    destruct (decide (m <= length xs)) as [Hm'|Hm'].
    + replace (m + (i - m `min` length zs)) with i by lia.
      destruct (xs !! i); [|reflexivity].
      cbn [fmap option_fmap option_map]. f_equal. case_bounds.
    + rewrite !lookup_ge_None_2 by lia. reflexivity.
Qed.

(** ** Subscripts                                                      *)

Lemma index_inside n k : k < n -> index n (Z.of_nat k) = Some k.
Proof.
  intros Hk. unfold index.
  destruct (Z.leb_spec 0 (Z.of_nat k)); [|lia].
  destruct (Z.ltb_spec (Z.of_nat k) (Z.of_nat n)); [|lia].
  simpl. f_equal. lia.
Qed.

Lemma index_beyond n k : n <= k -> index n (Z.of_nat k) = None.
Proof.
  intros Hk. unfold index.
  destruct (Z.leb_spec 0 (Z.of_nat k)); [|lia].
  destruct (Z.ltb_spec (Z.of_nat k) (Z.of_nat n)); [lia|].
  destruct (Z.ltb_spec (Z.of_nat k) 0); [lia|].
  simpl. rewrite andb_false_r. reflexivity.
Qed.

Lemma getitem_vec us k :
  k < length us ->
  getitem (vec us) (Z.of_nat k) = Ok (Scalar (nth k us 0%float)).
Proof.
  intros Hk. unfold getitem, vec. rewrite length_map, index_inside by lia.
  change (map Scalar us) with (Scalar <$> us).
  rewrite list_lookup_fmap, lookup_nth by lia. reflexivity.
Qed.

Lemma getitem_vec_beyond us k :
  length us <= k ->
  getitem (vec us) (Z.of_nat k) = Err (IndexError "index out of bounds").
Proof.
  intros Hk. unfold getitem, vec. rewrite length_map, index_beyond by lia.
  reflexivity.
Qed.

Lemma setitem_vec us k y :
  k < length us ->
  setitem (vec us) (Z.of_nat k) (Scalar y) = Ok (vec (<[k := y]> us)).
Proof.
  intros Hk. unfold setitem, vec. rewrite length_map, index_inside by lia.
  change (map Scalar ?l) with (Scalar <$> l).
  rewrite list_fmap_insert. reflexivity.
Qed.

(** [range(1, iMax-1)] as the list of the nodes it visits. *)
Lemma zrange_nodes z :
  zrange 1 (z - 1) = map Z.of_nat (seq 1 (Z.to_nat z - 2)).
Proof.
  unfold zrange. replace (Z.to_nat (z - 1 - 1)) with (Z.to_nat z - 2) by lia.
  rewrite <- seq_shift, map_map. apply map_ext. intros k. lia.
Qed.

(** The nodes of a loop whose bound [m] exceeds the number [n] of nodes:
    those that can be written, then the first one whose right neighbour
    does not exist. *)
Lemma seq_nodes_beyond n m :
  n < m -> 3 <= m ->
  exists rest, seq 1 (m - 2) = seq 1 (n - 2) ++ (1 + (n - 2)) :: rest.
Proof.
  intros Hn Hm. exists (seq (2 + (n - 2)) (m - 2 - (n - 2) - 1)).
  replace (m - 2) with ((n - 2) + S (m - 2 - (n - 2) - 1)) at 1 by lia.
  rewrite seq_app. reflexivity.
Qed.

Lemma map_const_zrange {A} (c : A) z :
  map (fun _ => c) (zrange 0 z) = replicate (Z.to_nat z) c.
Proof.
  unfold zrange. rewrite Z.sub_0_r, map_map.
  generalize 0. induction (Z.to_nat z) as [|k IH]; intros s; simpl;
    [reflexivity|]. rewrite IH. reflexivity.
Qed.

(** [D[1:-1] = rows] on a Python list of [m >= 2] equal entries. *)
Lemma list_setslice_replicate m z rows :
  2 <= m ->
  list_setslice (replicate m z) (Some 1%Z) (Some (-1)%Z) rows =
  z :: rows ++ [z].
Proof.
  intros Hm. unfold list_setslice. rewrite length_replicate, window_mid.
  destruct (Nat.leb_spec m 1); [lia|].
  rewrite take_replicate, drop_replicate.
  replace (1 `min` m) with 1 by lia. replace (m - (m - 1)) with 1 by lia.
  reflexivity.
Qed.

Lemma map_Scalar_ends z t :
  Scalar z :: map Scalar t ++ [Scalar z] = map Scalar (z :: t ++ [z]).
Proof. simpl. rewrite map_app. reflexivity. Qed.

(** ** Rules for runs on state vectors                                 *)

Lemma lookup_new {A} (h ks : list A) k : (h ++ ks) !! (length h + k) = ks !! k.
Proof. rewrite lookup_app_r by lia. f_equal. lia. Qed.

(** The arrays made during a run are listed after those of the call. *)
Lemma wp_start {A} (m : M A) Q h wn :
  wp m Q (World (h ++ []) wn) -> wp m Q (World h wn).
Proof. rewrite app_nil_r. exact id. Qed.

Lemma wp_run {A} (m : M A) (Q : result A -> world -> Prop) w r w' :
  m w = (r, w') -> Q r w' -> wp m Q w.
Proof. unfold wp. intros ->. exact id. Qed.

Lemma wp_deref_eq l a (Q : result ndarray -> world -> Prop) w :
  heap w !! l = Some a -> Q (Ok a) w -> wp (deref l) Q w.
Proof. intros H HQ. apply wp_deref. rewrite H. exact HQ. Qed.

Lemma wp_deref_vec l us (Q : result ndarray -> world -> Prop) w :
  heap w !! l = Some (vec us) ->
  Q (Ok (vec (tabulate (length us) (fun i => nth i us 0%float)))) w ->
  wp (deref l) Q w.
Proof.
  intros H HQ. apply wp_deref. rewrite H. rewrite <- tabulate_nth in HQ.
  exact HQ.
Qed.

Lemma wp_np_mid l us (Q : result ndarray -> world -> Prop) w :
  heap w !! l = Some (vec us) ->
  Q (Ok (vec (tabulate (length us - 2) (fun i => nth (S i) us 0%float)))) w ->
  wp (np_mid l) Q w.
Proof.
  intros H HQ. unfold np_getslice. apply wp_bind, wp_deref. rewrite H.
  apply wp_lift. fold (mid (vec us)). rewrite mid_vec. exact HQ.
Qed.

Lemma wp_np_fwd l us (Q : result ndarray -> world -> Prop) w :
  heap w !! l = Some (vec us) ->
  Q (Ok (vec (tabulate (length us - 2)
                (fun i => nth (S (S i)) us 0%float)))) w ->
  wp (np_fwd l) Q w.
Proof.
  intros H HQ. unfold np_getslice. apply wp_bind, wp_deref. rewrite H.
  apply wp_lift. fold (fwd (vec us)). rewrite fwd_vec. exact HQ.
Qed.

Lemma wp_np_bwd l us (Q : result ndarray -> world -> Prop) w :
  heap w !! l = Some (vec us) ->
  Q (Ok (vec (tabulate (length us - 2) (fun i => nth i us 0%float)))) w ->
  wp (np_bwd l) Q w.
Proof.
  intros H HQ. unfold np_getslice. apply wp_bind, wp_deref. rewrite H.
  apply wp_lift. fold (bwd (vec us)). rewrite bwd_vec. exact HQ.
Qed.

(** [l[1:-1] = v] writes the stencil [f] of the nodes [zs] when [v] holds
    [f] at every interior node and [l] holds [keep] at every node. *)
Lemma wp_np_setmid {A} (keep : A -> float) f (zs : list A) l us n v vf
  (Q : result unit -> world -> Prop) w :
  heap w !! l = Some (vec us) ->
  v = vec (tabulate n vf) ->
  n = length us - 2 ->
  length us = length zs ->
  (forall i z, zs !! i = Some z -> nth i us 0%float = keep z) ->
  (forall i l c r, zs !! i = Some l -> zs !! S i = Some c ->
                   zs !! S (S i) = Some r -> vf i = f l c r) ->
  Q (Ok tt) (World (<[l := vec (stencil keep f zs)]> (heap w)) (warns w)) ->
  wp (np_setmid l v) Q w.
Proof.
  intros H -> -> Hlen Hkeep Hv HQ. unfold np_setslice.
  apply wp_bind, wp_deref. rewrite H. enter.
  apply wp_bind, wp_lift.
  rewrite (setmid_stencil keep f zs) by assumption. enter.
  apply wp_assign. exact HQ.
Qed.

(** A division, with its warning written into the log. *)
Lemma wp_np_div_warns a b (Q : result ndarray -> world -> Prop) w :
  Q (Ok (a / b)%nd)
    (World (heap w)
       (if has_zero b then DivideByZero :: warns w else warns w)) ->
  wp (np_div a b) Q w.
Proof.
  intros HQ. apply wp_np_div. destruct (has_zero b); [exact HQ|].
  destruct w; exact HQ.
Qed.

Lemma wp_np_getitem_vec l us k (Q : result ndarray -> world -> Prop) w :
  heap w !! l = Some (vec us) -> k < length us ->
  Q (Ok (Scalar (nth k us 0%float))) w ->
  wp (np_getitem l (Z.of_nat k)) Q w.
Proof.
  intros H Hk HQ. eapply wp_np_getitem; [exact H|].
  rewrite getitem_vec by exact Hk. exact HQ.
Qed.

Lemma wp_np_getitem_beyond l us k (Q : result ndarray -> world -> Prop) w :
  heap w !! l = Some (vec us) -> length us <= k ->
  Q (Err (IndexError "index out of bounds")) w ->
  wp (np_getitem l (Z.of_nat k)) Q w.
Proof.
  intros H Hk HQ. eapply wp_np_getitem; [exact H|].
  rewrite getitem_vec_beyond by exact Hk. exact HQ.
Qed.

Lemma wp_np_setitem_vec l us k y (Q : result unit -> world -> Prop) w :
  heap w !! l = Some (vec us) -> k < length us ->
  Q (Ok tt) (World (<[l := vec (<[k := y]> us)]> (heap w)) (warns w)) ->
  wp (np_setitem l (Z.of_nat k) (Scalar y)) Q w.
Proof.
  intros H Hk HQ. eapply wp_np_setitem; [exact H|].
  rewrite setitem_vec by exact Hk. exact HQ.
Qed.

(** The speed at a face, on state vectors. *)
Lemma wp_alpha_face_vec Uo us n g i hi lo dU
  (Q : result ndarray -> world -> Prop) w :
  heap w !! Uo = Some (vec us) -> i < length us -> hi < n -> lo < n ->
  Q (Ok (Scalar (tvd_alpha (g hi - g lo) dU (nth i us 0%float)))) w ->
  wp (alpha_face Uo (vec (tabulate n g)) (Z.of_nat i) (Z.of_nat hi)
        (Z.of_nat lo) (Scalar dU)) Q w.
Proof.
  intros H Hi Hhi Hlo HQ.
  eapply alpha_face_spec; [exact H|apply getitem_vec; exact Hi| | |].
  - apply getitem_vec. rewrite length_tabulate. exact Hhi.
  - apply getitem_vec. rewrite length_tabulate. exact Hlo.
  - rewrite !nth_tabulate by assumption.
    unfold alpha_spec, tvd_alpha in *. destruct (PrimFloat.eqb dU 0); exact HQ.
Qed.

Lemma for_cons_ok i l body w w' :
  body i w = (Ok tt, w') -> for_ (i :: l) body w = for_ l body w'.
Proof.
  intros H. simpl. unfold mbind, M_bind, bind. rewrite H. reflexivity.
Qed.

Lemma for_cons_err i l body w e w' :
  body i w = (Err e, w') -> for_ (i :: l) body w = (Err e, w').
Proof.
  intros H. simpl. unfold mbind, M_bind, bind. rewrite H. reflexivity.
Qed.

Lemma for_app_ok l1 l2 body w w' :
  for_ l1 body w = (Ok tt, w') -> for_ (l1 ++ l2) body w = for_ l2 body w'.
Proof.
  revert w. induction l1 as [|i l1 IH]; intros w; simpl.
  - intros [= <-]. reflexivity.
  - unfold mbind, M_bind, bind. destruct (body i w) as [[[]|e] w1]; auto.
    discriminate.
Qed.

Create Rewrite HintDb nd.
Create Rewrite HintDb len.
#[local] Hint Rewrite bop_SS bop_SV bop_VS bop_VV nd_map_V
  mid_tabulate fwd_tabulate bwd_tabulate : nd.
#[local] Hint Rewrite @length_stencil @length_zip_with Nat.min_id
  length_tabulate length_loop_state : len.

(** The array under a name: one of the call, or one made since. *)
Ltac heap_lookup :=
  cbn [heap];
  first [ apply lookup_app_l_Some; eassumption
        | rewrite lookup_new; reflexivity ].

Ltac new_lookup :=
  cbn [heap];
  first [ solve_lookup
        | apply list_lookup_middle; reflexivity
        | apply lookup_app_l_Some, list_lookup_middle; reflexivity ].

Ltac norm_world :=
  cbn [heap warns];
  rewrite <- ?app_assoc, ?length_app, ?insert_app_r;
  cbn [app length insert list_insert].

(** The values at the nodes that the hypotheses name. *)
Ltac nth_facts :=
  intros; cbv beta;
  repeat match goal with
         | H : zip _ _ !! _ = Some _ |- _ =>
             apply lookup_zip_with_Some in H as (?&?&->&?&?)
         end;
  repeat match goal with
         | H1 : ?l !! ?i = Some _, H2 : ?l !! ?i = Some _ |- _ =>
             rewrite H1 in H2; injection H2 as <-
         end;
  repeat match goal with
         | H : _ !! _ = Some _ |- _ =>
             apply nth_lookup_Some with (d := 0%float) in H
         end;
  repeat match goal with
         | H : nth _ _ _ = _ |- _ => rewrite H; clear H
         end.

(** One step of a run on state vectors. *)
Ltac vstep :=
  lazymatch goal with
  | |- wp (mbind _ _) _ _ => apply wp_bind
  | |- wp (check_dimension _) _ _ =>
      eapply wp_check_dimension_ok;
      [heap_lookup|apply length_shape_vec|enter]
  | |- wp (viscous_only _) _ _ =>
      unfold viscous_only;
      repeat match goal with
             | H : model_is _ _ = _ |- _ => rewrite H
             end
  | |- wp (face_jacobian _ _ _) _ _ => unfold face_jacobian
  | |- wp (np_copy _) _ _ =>
      eapply wp_np_copy; [heap_lookup|enter; norm_world]
  | |- wp (deref _) _ _ =>
      eapply wp_deref_vec; [heap_lookup|enter; autorewrite with len nd]
  | |- wp (np_getslice _ (Some 1%Z) (Some (-1)%Z)) _ _ =>
      eapply wp_np_mid; [heap_lookup|enter; autorewrite with len nd]
  | |- wp (np_getslice _ (Some 2%Z) None) _ _ =>
      eapply wp_np_fwd; [heap_lookup|enter; autorewrite with len nd]
  | |- wp (np_getslice _ (Some 0%Z) (Some (-2)%Z)) _ _ =>
      eapply wp_np_bwd; [heap_lookup|enter; autorewrite with len nd]
  | |- wp (np_div _ _) _ _ =>
      autorewrite with len nd; apply wp_np_div_warns;
      rewrite ?has_zero_tabulate; autorewrite with len nd; enter;
      cbn [heap warns]
  | |- wp (lift _) _ _ => apply wp_lift; autorewrite with len nd; enter
  | |- wp (mret _) _ _ => apply wp_ret; enter
  | |- wp (raise _) _ _ => apply wp_raise; enter
  end.

(** The step [l[1:-1] = v], with the stencil it writes. *)
Ltac vsetmid keep f zs :=
  autorewrite with len nd;
  eapply (wp_np_setmid keep f zs);
  [ heap_lookup
  | reflexivity
  | autorewrite with len; reflexivity
  | autorewrite with len; reflexivity
  | nth_facts; reflexivity
  | nth_facts; reflexivity
  | enter; norm_world ].

Ltac vsetmid_target :=
  lazymatch goal with
  | |- context [stencil ?keep ?f ?zs] => vsetmid keep f zs
  end.

Ltac vdone := rewrite ?Nat.add_0_r; reflexivity.

(** One step of a run that ends in an exception. *)
Ltac estep :=
  lazymatch goal with
  | |- wp (deref _) _ _ => eapply wp_deref_eq; [new_lookup|enter]
  | |- wp (alloc _) _ _ => apply wp_alloc; enter
  | |- wp (py_sub (PyTuple _) _) _ _ => unfold py_sub; apply wp_raise; enter
  | |- wp (py_range _ (PyTuple _)) _ _ =>
      unfold py_range; apply wp_raise; enter
  | |- _ => xstep
  end.

(** The node of a loop, as a natural number. *)
Ltac loop_index :=
  repeat match goal with
         | |- context [(Z.of_nat ?k + 1)%Z] =>
             replace (Z.of_nat k + 1)%Z with (Z.of_nat (S k)) by lia
         | |- context [(Z.of_nat ?k - 1)%Z] =>
             replace (Z.of_nat k - 1)%Z with (Z.of_nat (k - 1)) by lia
         end.

Ltac fold_loop_state :=
  repeat match goal with
         | |- context [<[?k := ?y]> (loop_state ?k ?F ?xs)] =>
             change y with (F k); rewrite (loop_state_insert k F xs) by lia
         end.

(** One step of the body of a loop. *)
Ltac lstep :=
  lazymatch goal with
  | |- wp (mbind _ _) _ _ => apply wp_bind
  | |- wp (np_getitem _ (Z.of_nat _)) _ _ =>
      eapply wp_np_getitem_vec;
      [heap_lookup|autorewrite with len; lia|enter; autorewrite with nd]
  | |- wp (np_setitem _ (Z.of_nat _) _) _ _ =>
      autorewrite with nd;
      eapply wp_np_setitem_vec;
      [heap_lookup|autorewrite with len; lia|enter; norm_world]
  | |- wp (lift _) _ _ => apply wp_lift; autorewrite with len nd; enter
  | |- wp (mret _) _ _ => apply wp_ret; enter
  end.

(* ================================================================== *)
(** * 14. The schemes written with slices, node by node                *)
(* ================================================================== *)

Lemma ExplicitFirstUpwind_run cfg Uo C w xs :
  heap w !! Uo = Some (vec xs) ->
  ExplicitFirstUpwind cfg Uo C w =
    (Ok (RArray (length (heap w))),
     World (heap w ++ [vec (stencil id (ExplicitFirstUpwind_node cfg C) xs)])
       (warns w)).
Proof.
  intros H. destruct w as [h wn]. cbn [heap warns] in *.
  apply wp_eq, wp_start. unfold ExplicitFirstUpwind, ExplicitFirstUpwind_node.
  repeat vstep.
  destruct (model_is cfg "FO_WAVE"); [|destruct (model_is cfg "INV_BURGERS")];
    repeat vstep; [vsetmid_target; repeat vstep; vdone ..|].
  rewrite stencil_centre. vdone.
Qed.

Lemma Lax_run cfg Uo C w xs :
  heap w !! Uo = Some (vec xs) ->
  Lax cfg Uo C w =
    (Ok (RArray (length (heap w))),
     World (heap w ++ [vec (stencil id (Lax_node cfg C) xs)]) (warns w)).
Proof.
  intros H. destruct w as [h wn]. cbn [heap warns] in *.
  apply wp_eq, wp_start. unfold Lax, Lax_node.
  repeat vstep.
  destruct (model_is cfg "FO_WAVE"); [|destruct (model_is cfg "INV_BURGERS")];
    repeat vstep; [vsetmid_target; repeat vstep; vdone ..|].
  rewrite stencil_centre. vdone.
Qed.

Lemma LaxWendroff_run cfg Uo C w xs :
  heap w !! Uo = Some (vec xs) ->
  LaxWendroff cfg Uo C w =
    (Ok (RArray (length (heap w))),
     World (heap w ++ [vec (stencil id (LaxWendroff_node cfg C) xs)])
       (warns w)).
Proof.
  intros H. destruct w as [h wn]. cbn [heap warns] in *.
  apply wp_eq, wp_start. unfold LaxWendroff, LaxWendroff_node.
  repeat vstep.
  destruct (model_is cfg "FO_WAVE"); [|destruct (model_is cfg "INV_BURGERS")];
    repeat vstep; [vsetmid_target; repeat vstep; vdone ..|].
  rewrite stencil_centre. vdone.
Qed.

(** The four stages of [FourthOrderRungeKutta], with the flux of the
    model. *)
Ltac rk4_run flux C xs :=
  repeat vstep;
  vsetmid (@fst float float)
    (fun l c r : float * float =>
       (c.1 - 0.5 * C * (flux r.2 - flux l.2) / 2.0)%float) (zip xs xs);
  repeat vstep;
  lazymatch goal with
  | |- wp _ _ (World (_ ++ [_; vec ?u1; _; _]) _) =>
      vsetmid (@fst float float)
        (fun l c r : float * float =>
           (c.1 - 0.5 * C * (flux r.2 - flux l.2) / 2.0)%float) (zip xs u1)
  end;
  repeat vstep;
  lazymatch goal with
  | |- wp _ _ (World (_ ++ [_; _; vec ?u2; _]) _) =>
      vsetmid (@fst float float)
        (fun l c r : float * float =>
           (c.1 - C * (flux r.2 - flux l.2) / 2.0)%float) (zip xs u2)
  end;
  repeat vstep;
  lazymatch goal with
  | |- wp _ _ (World (_ ++ [_; vec ?u1; vec ?u2; vec ?u3]) _) =>
      vsetmid (@fst float (float * (float * float)))
        (fun l c r : float * (float * (float * float)) =>
           (c.1 - 0.5 * C
                  * ((((1.0 / 6) * (flux r.1 - flux l.1))
                      + ((1.0 / 3) * (flux r.2.1 - flux l.2.1))
                      + ((1.0 / 3) * (flux r.2.2.1 - flux l.2.2.1)))
                     + ((1.0 / 6) * (flux r.2.2.2 - flux l.2.2.2))))%float)
        (zip xs (zip u1 (zip u2 u3)))
  end;
  repeat vstep; vdone.

Lemma FourthOrderRungeKutta_run cfg Uo C w xs :
  model_is cfg "FO_WAVE" || model_is cfg "INV_BURGERS" = true ->
  heap w !! Uo = Some (vec xs) ->
  let flux := if model_is cfg "FO_WAVE" then id else burgers_flux in
  let U1 := rk4_half flux C xs xs in
  let U2 := rk4_half flux C xs U1 in
  let U3 := rk4_full flux C xs U2 in
  FourthOrderRungeKutta cfg Uo C w =
    (Ok (RArray (length (heap w))),
     World (heap w ++ [vec (rk4_final flux C xs U1 U2 U3);
                       vec U1; vec U2; vec U3]) (warns w)).
Proof.
  intros Hm H flux U1 U2 U3. subst U3 U2 U1 flux.
  destruct w as [h wn]. cbn [heap warns] in *.
  apply wp_eq, wp_start.
  unfold FourthOrderRungeKutta.
  repeat vstep.
  destruct (model_is cfg "FO_WAVE"); [|cbn [orb] in Hm; rewrite Hm].
  - rk4_run (@id float) C xs.
  - rk4_run burgers_flux C xs.
Qed.

Lemma FourthOrderRungeKutta_unknown cfg Uo C w xs :
  model_is cfg "FO_WAVE" = false -> model_is cfg "INV_BURGERS" = false ->
  heap w !! Uo = Some (vec xs) ->
  FourthOrderRungeKutta cfg Uo C w =
    (Ok (RArray (length (heap w))), World (heap w ++ [vec xs]) (warns w)).
Proof.
  intros Hw Hi H. apply wp_eq. unfold FourthOrderRungeKutta.
  pose proof (length_shape_vec xs). repeat estep. reflexivity.
Qed.

(** A stage of [ModifiedRungeKutta] on the array that [U] holds. *)
Ltac mrk_set flux C k :=
  lazymatch goal with
  | H : _ !! _ = Some (vec ?xs)
    |- wp (np_setslice _ _ _ _) _ (World (_ ++ [vec ?us]) _) =>
      vsetmid (@snd float float)
        (fun l c r : float * float =>
           (c.1 - C * (flux r.2 - flux l.2) / k)%float)
        (zip xs us)
  end.

Lemma ModifiedRungeKutta_run cfg Uo C d w xs :
  heap w !! Uo = Some (vec xs) ->
  ModifiedRungeKutta cfg Uo C d w =
    (Ok (RArray (length (heap w))),
     World (heap w ++ [vec (ModifiedRungeKutta_state cfg C d xs)]) (warns w)).
Proof.
  intros H. destruct w as [h wn]. cbn [heap warns] in *.
  apply wp_eq, wp_start.
  unfold ModifiedRungeKutta, ModifiedRungeKutta_state, mrk_stages, mrk_stage,
    mrk_wave_stage, mrk_burgers_stage, burgers_flux.
  repeat vstep.
  destruct (model_is cfg "FO_WAVE").
  { repeat vstep. mrk_set (@id float) C 8%float.
    repeat vstep. mrk_set (@id float) C 6%float.
    repeat vstep. mrk_set (@id float) C 4%float.
    repeat vstep. mrk_set (@id float) C 2%float.
    repeat vstep. vdone. }
  destruct (model_is cfg "INV_BURGERS"), (model_is cfg "VISC_BURGERS");
    cbn [orb]; cbv iota zeta;
    try (repeat vstep; mrk_set (fun u : float => (u * u / 2)%float) C 8%float;
         repeat vstep; mrk_set (fun u : float => (u * u / 2)%float) C 6%float;
         repeat vstep; mrk_set (fun u : float => (u * u / 2)%float) C 4%float;
         repeat vstep; mrk_set (fun u : float => (u * u / 2)%float) C 2%float;
         repeat vstep;
         try (lazymatch goal with
              | |- wp (np_setslice _ _ _ _) _ (World (_ ++ [vec ?us]) _) =>
                  vsetmid (@id float) (diffusion_node d) us
              end; repeat vstep);
         vdone).
  repeat vstep. vdone.
Qed.

Lemma FTCS_run cfg Uo C d w xs :
  model_is cfg "FO_WAVE" = false -> model_is cfg "INV_BURGERS" = false ->
  heap w !! Uo = Some (vec xs) ->
  let A := stencil id face_speed xs in
  FTCS cfg Uo C d w =
    (Ok (RArray (length (heap w))),
     World (heap w ++ [vec (stencil fst (FTCS_node C d) (zip xs A)); vec A])
       (if zero_face xs then DivideByZero :: warns w else warns w)).
Proof.
  intros Hw Hi H A. subst A. destruct w as [h wn]. cbn [heap warns] in *.
  apply wp_eq, wp_start. unfold FTCS.
  repeat vstep.
  vsetmid (@id float) face_speed xs.
  repeat vstep.
  vsetmid (@fst float float) (FTCS_node C d) (zip xs (stencil id face_speed xs)).
  repeat vstep. vdone.
Qed.

Lemma FTBCS_run cfg Uo C d w xs :
  model_is cfg "FO_WAVE" = false -> model_is cfg "INV_BURGERS" = false ->
  heap w !! Uo = Some (vec xs) ->
  let A := stencil id face_speed xs in
  FTBCS cfg Uo C d w =
    (Ok (RArray (length (heap w))),
     World (heap w ++ [vec (stencil fst (FTBCS_node C d) (zip xs A)); vec A])
       (if zero_face xs then DivideByZero :: warns w else warns w)).
Proof.
  intros Hw Hi H A. subst A. destruct w as [h wn]. cbn [heap warns] in *.
  apply wp_eq, wp_start. unfold FTBCS.
  repeat vstep.
  vsetmid (@id float) face_speed xs.
  repeat vstep.
  vsetmid (@fst float float) (FTBCS_node C d) (zip xs (stencil id face_speed xs)).
  repeat vstep. vdone.
Qed.

(** On a state vector [ExplicitFirstUpwind] raises nothing, divides
    nothing and returns one new array: the first and the last node are
    those of the input, and every node in between holds
    [ExplicitFirstUpwind_node], the formula of the model at that node
    from the node and its two neighbours in the input (the node itself
    for a model the function does not know). *)
Theorem ExplicitFirstUpwind_nodewise cfg Uo C w xs :
  heap w !! Uo = Some (vec xs) ->
  ExplicitFirstUpwind cfg Uo C w =
    (Ok (RArray (length (heap w))),
     World (heap w ++ [vec (stencil id (ExplicitFirstUpwind_node cfg C) xs)])
       (warns w)).
Proof. exact (ExplicitFirstUpwind_run cfg Uo C w xs). Qed.

(** On a state vector [Lax] raises nothing and returns one new array
    that holds [Lax_node] at every interior node and the input's values
    at the two ends; the node's own value is not read. *)
Theorem Lax_nodewise cfg Uo C w xs :
  heap w !! Uo = Some (vec xs) ->
  Lax cfg Uo C w =
    (Ok (RArray (length (heap w))),
     World (heap w ++ [vec (stencil id (Lax_node cfg C) xs)]) (warns w)).
Proof. exact (Lax_run cfg Uo C w xs). Qed.

(** On a state vector [LaxWendroff] raises nothing and returns one new
    array that holds [LaxWendroff_node] at every interior node and the
    input's values at the two ends. *)
Theorem LaxWendroff_nodewise cfg Uo C w xs :
  heap w !! Uo = Some (vec xs) ->
  LaxWendroff cfg Uo C w =
    (Ok (RArray (length (heap w))),
     World (heap w ++ [vec (stencil id (LaxWendroff_node cfg C) xs)])
       (warns w)).
Proof. exact (LaxWendroff_run cfg Uo C w xs). Qed.

(** For the wave and the inviscid Burgers model, [FourthOrderRungeKutta]
    on a state vector makes four arrays.  The stage arrays [U1], [U2],
    [U3] are each computed from the input at the node and from the whole
    array of the stage before at the two neighbours, never from an array
    that is being written; the array returned combines the four of them
    with the weights 1/6, 1/3, 1/3, 1/6.  All four keep the end nodes of
    the input. *)
Theorem FourthOrderRungeKutta_nodewise cfg Uo C w xs :
  model_is cfg "FO_WAVE" || model_is cfg "INV_BURGERS" = true ->
  heap w !! Uo = Some (vec xs) ->
  let flux := if model_is cfg "FO_WAVE" then id else burgers_flux in
  let U1 := rk4_half flux C xs xs in
  let U2 := rk4_half flux C xs U1 in
  let U3 := rk4_full flux C xs U2 in
  FourthOrderRungeKutta cfg Uo C w =
    (Ok (RArray (length (heap w))),
     World (heap w ++ [vec (rk4_final flux C xs U1 U2 U3);
                       vec U1; vec U2; vec U3]) (warns w)).
Proof. exact (FourthOrderRungeKutta_run cfg Uo C w xs). Qed.

(** [ModifiedRungeKutta] on a state vector makes one array and rewrites
    it four times: each stage, with divisors 8, 6, 4 and 2, takes the
    input at the node and the array as the stage before left it at the
    two neighbours.  The inviscid and the viscous Burgers model run the
    same four stages, and the viscous one then adds the diffusion term
    computed from the result of the fourth stage.  A model the function
    does not know leaves a copy of the input. *)
Theorem ModifiedRungeKutta_nodewise cfg Uo C d w xs :
  heap w !! Uo = Some (vec xs) ->
  ModifiedRungeKutta cfg Uo C d w =
    (Ok (RArray (length (heap w))),
     World (heap w ++ [vec (ModifiedRungeKutta_state cfg C d xs)]) (warns w)).
Proof. exact (ModifiedRungeKutta_run cfg Uo C d w xs). Qed.



(** ** States of at most two nodes                                     *)

Lemma mrk_stage_short flux C k xs us :
  length xs <= 2 -> length us = length xs -> mrk_stage flux C k xs us = us.
Proof.
  intros Hn Hl. unfold mrk_stage.
  rewrite stencil_short by (autorewrite with len; lia).
  apply map_snd_zip. lia.
Qed.

Lemma ModifiedRungeKutta_state_short cfg C d xs :
  length xs <= 2 -> ModifiedRungeKutta_state cfg C d xs = xs.
Proof.
  intros Hn.
  assert (Hs : forall flux, mrk_stages flux C xs = xs).
  { intros flux. unfold mrk_stages.
    rewrite (mrk_stage_short flux C 8 xs xs) by auto.
    rewrite (mrk_stage_short flux C 6 xs xs) by auto.
    rewrite (mrk_stage_short flux C 4 xs xs) by auto.
    apply mrk_stage_short; auto. }
  unfold ModifiedRungeKutta_state. rewrite !Hs. cbv zeta.
  rewrite stencil_short, map_id by auto.
  repeat match goal with |- context [if ?b then _ else _] => destruct b end;
    reflexivity.
Qed.

Lemma rk4_short flux C xs :
  length xs <= 2 ->
  rk4_half flux C xs xs = xs /\
  rk4_full flux C xs xs = xs /\
  rk4_final flux C xs xs xs xs = xs.
Proof.
  intros Hn. unfold rk4_half, rk4_full, rk4_final.
  rewrite !stencil_short by (autorewrite with len; lia).
  rewrite !map_fst_zip by (autorewrite with len; lia). auto.
Qed.

Lemma zero_face_short xs : length xs <= 2 -> zero_face xs = false.
Proof.
  intros Hn. unfold zero_face. replace (length xs - 2) with 0 by lia.
  reflexivity.
Qed.

Section Short.

Variable CalcUi : ndarray -> ndarray -> ndarray.
Variable TridiagonalSolver :
  pyobj -> list ndarray -> list ndarray -> list ndarray -> list ndarray ->
  loc -> M pyret.
Variable TVDLimiterFunctionOptions : list string.
Variable CalculateTVD :
  Z -> loc -> ndarray -> float -> float -> string -> string ->
  M (ndarray * ndarray).

(** A state vector of no, one or two nodes has no interior node: each of
    the seven schemes written with slices, called with a model it does
    not turn down, raises nothing, issues no division warning (the face
    speeds of [FTCS] and [FTBCS] are taken over no node) and returns a
    new array equal to the input. *)
Theorem short_state_unchanged s cfg x w xs :
  In s slice_schemes ->
  ~ In (upper (Model cfg)) (rejected_models s) ->
  heap w !! Uo x = Some (vec xs) -> length xs <= 2 ->
  exists w',
    run CalcUi TridiagonalSolver TVDLimiterFunctionOptions CalculateTVD
      s cfg x w = (Ok (RArray (length (heap w))), w') /\
    heap w' !! length (heap w) = Some (vec xs) /\
    warns w' = warns w.
Proof.
  intros Hs Hm H Hn.
  assert (Hlook : forall k : list ndarray,
            (heap w ++ vec xs :: k) !! length (heap w) = Some (vec xs)).
  { intros k. apply list_lookup_middle. reflexivity. }
  unfold slice_schemes in Hs. cbn [In] in Hs.
  repeat destruct Hs as [<-|Hs]; try destruct Hs; cbn [run].
  - rewrite (ExplicitFirstUpwind_run _ _ _ _ xs H).
    rewrite stencil_short, map_id by exact Hn. eauto.
  - rewrite (Lax_run _ _ _ _ xs H).
    rewrite stencil_short, map_id by exact Hn. eauto.
  - rewrite (LaxWendroff_run _ _ _ _ xs H).
    rewrite stencil_short, map_id by exact Hn. eauto.
  - destruct (model_is cfg "FO_WAVE" || model_is cfg "INV_BURGERS") eqn:E.
    + rewrite (FourthOrderRungeKutta_run _ _ _ _ xs E H).
      destruct (rk4_short
                  (if model_is cfg "FO_WAVE" then id else burgers_flux)
                  (Courant x) xs Hn) as (E1&E2&E3).
      cbv zeta. rewrite !E1, !E2, E3. eauto.
    + apply orb_false_elim in E as [Ew Ei].
      rewrite (FourthOrderRungeKutta_unknown _ _ _ _ xs Ew Ei H). eauto.
  - rewrite (ModifiedRungeKutta_run _ _ _ _ _ xs H).
    rewrite ModifiedRungeKutta_state_short by exact Hn. eauto.
  - assert (Ew : model_is cfg "FO_WAVE" = false)
      by (apply model_is_neq; intros E; apply Hm; simpl; auto).
    assert (Ei : model_is cfg "INV_BURGERS" = false)
      by (apply model_is_neq; intros E; apply Hm; simpl; auto).
    rewrite (FTCS_run _ _ _ _ _ xs Ew Ei H). cbv zeta.
    rewrite zero_face_short by exact Hn.
    rewrite (stencil_short id), map_id by exact Hn.
    rewrite stencil_short by (autorewrite with len; lia).
    rewrite map_fst_zip by lia. eauto.
  - assert (Ew : model_is cfg "FO_WAVE" = false)
      by (apply model_is_neq; intros E; apply Hm; simpl; auto).
    assert (Ei : model_is cfg "INV_BURGERS" = false)
      by (apply model_is_neq; intros E; apply Hm; simpl; auto).
    rewrite (FTBCS_run _ _ _ _ _ xs Ew Ei H). cbv zeta.
    rewrite zero_face_short by exact Hn.
    rewrite (stencil_short id), map_id by exact Hn.
    rewrite stencil_short by (autorewrite with len; lia).
    rewrite map_fst_zip by lia. eauto.
Qed.

End Short.

(* ================================================================== *)
(** * 15. The schemes written with loops over the nodes                *)
(* ================================================================== *)

(** One pass of the loop of [LaxWendroffMultiStep] at a node whose right
    neighbour exists. *)
Lemma lwms_iteration (C : float) Uo xs (h : list ndarray) wn k :
  h !! Uo = Some (vec xs) -> 1 <= k -> S k < length xs ->
  (fun i : Z =>
     Uo_i1 ← np_getitem Uo (i + 1);
     Uo_i ← np_getitem Uo i;
     np_setitem (length h + 1) i
       (#0.5 * (Uo_i1 + Uo_i) - #0.5 * C * (Uo_i1 - Uo_i))%nd;;
     Uhalf_i ← np_getitem (length h + 1) i;
     Uhalf_im1 ← np_getitem (length h + 1) (i - 1);
     np_setitem (length h + 0) i (Uo_i - C * (Uhalf_i - Uhalf_im1))%nd)
    (Z.of_nat k)
    (World (h ++ [vec (loop_state k (lwms_new C xs) xs);
                  vec (loop_state k (lwms_half C xs) xs)]) wn) =
  (Ok tt,
   World (h ++ [vec (loop_state (S k) (lwms_new C xs) xs);
                vec (loop_state (S k) (lwms_half C xs) xs)]) wn).
Proof.
  intros H Hk Hn. cbv beta. apply wp_eq. loop_index.
  repeat (lstep; fold_loop_state).
  reflexivity.
Qed.

Lemma lwms_loop (C : float) Uo xs (h : list ndarray) wn cnt : forall k,
  h !! Uo = Some (vec xs) -> 1 <= k ->
  (cnt = 0 \/ k + cnt < length xs) ->
  for_ (map Z.of_nat (seq k cnt))
    (fun i : Z =>
       Uo_i1 ← np_getitem Uo (i + 1);
       Uo_i ← np_getitem Uo i;
       np_setitem (length h + 1) i
         (#0.5 * (Uo_i1 + Uo_i) - #0.5 * C * (Uo_i1 - Uo_i))%nd;;
       Uhalf_i ← np_getitem (length h + 1) i;
       Uhalf_im1 ← np_getitem (length h + 1) (i - 1);
       np_setitem (length h + 0) i (Uo_i - C * (Uhalf_i - Uhalf_im1))%nd)
    (World (h ++ [vec (loop_state k (lwms_new C xs) xs);
                  vec (loop_state k (lwms_half C xs) xs)]) wn) =
  (Ok tt,
   World (h ++ [vec (loop_state (k + cnt) (lwms_new C xs) xs);
                vec (loop_state (k + cnt) (lwms_half C xs) xs)]) wn).
Proof.
  induction cnt as [|cnt IH]; intros k H Hk Hn.
  - rewrite (Nat.add_0_r k). reflexivity.
  - cbn [seq map]. erewrite for_cons_ok; [|apply lwms_iteration; auto; lia].
    rewrite IH by (auto; lia). rewrite Nat.add_succ_r. reflexivity.
Qed.

Lemma lwms_loop_start (C : float) Uo xs (h : list ndarray) wn cnt :
  h !! Uo = Some (vec xs) ->
  (cnt = 0 \/ 1 + cnt < length xs) ->
  for_ (map Z.of_nat (seq 1 cnt))
    (fun i : Z =>
       Uo_i1 ← np_getitem Uo (i + 1);
       Uo_i ← np_getitem Uo i;
       np_setitem (length h + 1) i
         (#0.5 * (Uo_i1 + Uo_i) - #0.5 * C * (Uo_i1 - Uo_i))%nd;;
       Uhalf_i ← np_getitem (length h + 1) i;
       Uhalf_im1 ← np_getitem (length h + 1) (i - 1);
       np_setitem (length h + 0) i (Uo_i - C * (Uhalf_i - Uhalf_im1))%nd)
    (World (h ++ [vec xs; vec xs]) wn) =
  (Ok tt,
   World (h ++ [vec (loop_state (1 + cnt) (lwms_new C xs) xs);
                vec (loop_state (1 + cnt) (lwms_half C xs) xs)]) wn).
Proof.
  intros H Hn. pose proof (lwms_loop C Uo xs h wn cnt 1 H (le_n 1) Hn) as L.
  rewrite !loop_state_start in L. exact L.
Qed.

Lemma lwms_half_stencil C xs m :
  m <= length xs \/ m <= 2 ->
  loop_state (1 + (m - 2)) (lwms_half C xs) xs =
  stencil id (lwms_half_node C) (take m xs) ++ drop m xs.
Proof.
  intros Hm. apply loop_state_stencil; auto.
  - intros i z Hz. symmetry. apply nth_lookup_Some. exact Hz.
  - intros. unfold lwms_half, lwms_half_node. nth_facts. reflexivity.
Qed.

Lemma lwms_new_stencil C xs m :
  m <= length xs \/ m <= 2 ->
  loop_state (1 + (m - 2)) (lwms_new C xs) xs =
  stencil fst (lwms_node C)
    (take m (zip xs (loop_state (1 + (m - 2)) (lwms_half C xs) xs)))
  ++ drop m xs.
Proof.
  intros Hm. apply loop_state_stencil; auto.
  - autorewrite with len. reflexivity.
  - intros i z Hz. apply lookup_zip_with_Some in Hz as (x&y&->&Hx&Hy).
    symmetry. apply nth_lookup_Some. exact Hx.
  - intros i l c r Hi Hl Hc Hr.
    apply lookup_zip_with_Some in Hl as (xl&hl&->&Hxl&Hhl).
    apply lookup_zip_with_Some in Hc as (xc&hc&->&Hxc&Hhc).
    apply lookup_lt_Some in Hr. autorewrite with len in Hr.
    apply nth_lookup_Some with (d := 0%float) in Hxl, Hhl, Hxc, Hhc.
    unfold lwms_new, lwms_node. cbn [fst snd]. cbv zeta.
    rewrite <- Hhl, <- Hhc, Hxc.
    rewrite !nth_loop_state by lia. rewrite Nat.sub_succ, Nat.sub_0_r.
    do 2 f_equal. case_bounds.
Qed.

(** For the wave model, on a state vector of [n] nodes and with
    [cfg.iMax <= n] (or [cfg.iMax <= 2], when the loop visits no node),
    [LaxWendroffMultiStep] raises nothing and makes two arrays.  Only the
    nodes [1 .. iMax-2] are written; those from [iMax-1] on are the
    input's.  [Uhalf[i]] is the half-step value between the nodes [i] and
    [i+1], and [U[i] = Uo[i] - C*(Uhalf[i] - Uhalf[i-1])], where at node
    1 [Uhalf[0]] is the value [Uo[0]] of the copy and no half-step
    value. *)
Theorem LaxWendroffMultiStep_nodewise cfg Uo C w xs :
  model_is cfg "FO_WAVE" = true ->
  heap w !! Uo = Some (vec xs) ->
  (iMax cfg <= Z.of_nat (length xs) \/ iMax cfg <= 2)%Z ->
  let m := Z.to_nat (iMax cfg) in
  let Uhalf := stencil id (lwms_half_node C) (take m xs) ++ drop m xs in
  let U := stencil fst (lwms_node C) (take m (zip xs Uhalf)) ++ drop m xs in
  LaxWendroffMultiStep cfg Uo C w =
    (Ok (RArray (length (heap w))),
     World (heap w ++ [vec U; vec Uhalf]) (warns w)).
Proof.
  intros Hw H Hm m Uhalf U.
  assert (Hm' : m <= length xs \/ m <= 2) by lia.
  destruct w as [h wn]. cbn [heap warns] in *.
  apply wp_eq, wp_start. unfold LaxWendroffMultiStep.
  repeat vstep. rewrite Hw. unfold py_sub, py_range.
  repeat vstep. rewrite zrange_nodes.
  eapply wp_run; [apply lwms_loop_start; [exact H|lia]|].
  enter. repeat vstep. fold m.
  rewrite lwms_new_stencil, lwms_half_stencil by exact Hm'.
  vdone.
Qed.

(** For the wave model, when [cfg.iMax] is at least 3 and exceeds the
    number of nodes of the state vector, [LaxWendroffMultiStep] raises
    [IndexError]: the loop reaches a node whose right neighbour
    [Uo[i+1]] does not exist. *)
Theorem LaxWendroffMultiStep_iMax_beyond cfg Uo C w xs :
  model_is cfg "FO_WAVE" = true ->
  heap w !! Uo = Some (vec xs) ->
  (Z.of_nat (length xs) < iMax cfg)%Z -> (3 <= iMax cfg)%Z ->
  (LaxWendroffMultiStep cfg Uo C w).1 =
    Err (IndexError "index out of bounds").
Proof.
  intros Hw H Hn Hm.
  destruct w as [h wn]. cbn [heap warns] in *.
  apply wp_result, wp_start. unfold LaxWendroffMultiStep.
  repeat vstep. rewrite Hw. unfold py_sub, py_range.
  repeat vstep. rewrite zrange_nodes.
  destruct (seq_nodes_beyond (length xs) (Z.to_nat (iMax cfg)))
    as [rest ->]; [lia|lia|].
  rewrite map_app. cbn [map].
  eapply wp_run.
  { erewrite for_app_ok; [|apply lwms_loop_start; [exact H|lia]].
    apply for_cons_err. apply wp_eq. loop_index.
    apply wp_bind. eapply wp_np_getitem_beyond; [heap_lookup|lia|].
    reflexivity. }
  reflexivity.
Qed.

Section TVD.

(** [CalcUi] is taken to map two node values to a value: [calc]. *)
Variable CalcUi : ndarray -> ndarray -> ndarray.
Variable calc : float -> float -> float.
Hypothesis CalcUi_scalar :
  forall a b, CalcUi (Scalar a) (Scalar b) = Scalar (calc a b).

Lemma tvd_iteration (C : float) Uo xs (h : list ndarray) wn k :
  h !! Uo = Some (vec xs) -> 1 <= k -> S k < length xs ->
  FirstOrderTVD_node CalcUi Uo (length h + 0)
    (vec (tabulate (length xs)
            (fun i => (nth i xs 0 * nth i xs 0 / 2)%float))) C (Z.of_nat k)
    (World (h ++ [vec (loop_state k (tvd_new calc C xs) xs)]) wn) =
  (Ok tt, World (h ++ [vec (loop_state (S k) (tvd_new calc C xs) xs)]) wn).
Proof.
  intros H Hk Hn. apply wp_eq. unfold FirstOrderTVD_node. loop_index.
  repeat lstep. rewrite !CalcUi_scalar.
  eapply wp_alpha_face_vec; [heap_lookup|lia..|]. enter.
  repeat lstep.
  eapply wp_alpha_face_vec; [heap_lookup|lia..|]. enter.
  repeat lstep. rewrite !getitem_vec by (rewrite length_tabulate; lia).
  rewrite !nth_tabulate by lia. enter.
  repeat lstep. fold_loop_state. reflexivity.
Qed.

Lemma tvd_loop (C : float) Uo xs (h : list ndarray) wn cnt : forall k,
  h !! Uo = Some (vec xs) -> 1 <= k ->
  (cnt = 0 \/ k + cnt < length xs) ->
  for_ (map Z.of_nat (seq k cnt))
    (FirstOrderTVD_node CalcUi Uo (length h + 0)
       (vec (tabulate (length xs)
               (fun i => (nth i xs 0 * nth i xs 0 / 2)%float))) C)
    (World (h ++ [vec (loop_state k (tvd_new calc C xs) xs)]) wn) =
  (Ok tt, World (h ++ [vec (loop_state (k + cnt) (tvd_new calc C xs) xs)]) wn).
Proof.
  induction cnt as [|cnt IH]; intros k H Hk Hn.
  - rewrite (Nat.add_0_r k). reflexivity.
  - cbn [seq map]. erewrite for_cons_ok; [|apply tvd_iteration; auto; lia].
    rewrite IH by (auto; lia). rewrite Nat.add_succ_r. reflexivity.
Qed.

Lemma tvd_loop_start (C : float) Uo xs (h : list ndarray) wn cnt :
  h !! Uo = Some (vec xs) ->
  (cnt = 0 \/ 1 + cnt < length xs) ->
  for_ (map Z.of_nat (seq 1 cnt))
    (FirstOrderTVD_node CalcUi Uo (length h + 0)
       (vec (tabulate (length xs)
               (fun i => (nth i xs 0 * nth i xs 0 / 2)%float))) C)
    (World (h ++ [vec xs]) wn) =
  (Ok tt, World (h ++ [vec (loop_state (1 + cnt) (tvd_new calc C xs) xs)]) wn).
Proof.
  intros H Hn. pose proof (tvd_loop C Uo xs h wn cnt 1 H (le_n 1) Hn) as L.
  rewrite !loop_state_start in L. exact L.
Qed.

Lemma tvd_new_stencil C xs m :
  m <= length xs \/ m <= 2 ->
  loop_state (1 + (m - 2)) (tvd_new calc C xs) xs =
  stencil id (FirstOrderTVD_value calc C) (take m xs) ++ drop m xs.
Proof.
  intros Hm. apply loop_state_stencil; auto.
  - intros i z Hz. symmetry. apply nth_lookup_Some. exact Hz.
  - intros. unfold tvd_new. rewrite Nat.sub_succ, Nat.sub_0_r.
    nth_facts. reflexivity.
Qed.

(** For every model but the wave model, known to the module or not, on
    a state vector of [n] nodes and with [cfg.iMax <= n] (or
    [cfg.iMax <= 2]), [FirstOrderTVD] raises nothing, issues no division
    warning and returns one new array: the nodes [1 .. iMax-2] hold
    [FirstOrderTVD_value] of the node and its two neighbours in the
    input, the other nodes are the input's.  [CalcUi] is assumed to map
    two node values to a value. *)
Theorem FirstOrderTVD_nodewise cfg Uo C w xs :
  model_is cfg "FO_WAVE" = false ->
  heap w !! Uo = Some (vec xs) ->
  (iMax cfg <= Z.of_nat (length xs) \/ iMax cfg <= 2)%Z ->
  let m := Z.to_nat (iMax cfg) in
  FirstOrderTVD CalcUi cfg Uo C w =
    (Ok (RArray (length (heap w))),
     World (heap w ++
            [vec (stencil id (FirstOrderTVD_value calc C) (take m xs)
                  ++ drop m xs)]) (warns w)).
Proof.
  intros Hw H Hm m.
  assert (Hm' : m <= length xs \/ m <= 2) by lia.
  destruct w as [h wn]. cbn [heap warns] in *.
  apply wp_eq, wp_start. unfold FirstOrderTVD.
  repeat vstep. rewrite Hw.
  repeat vstep. unfold py_sub, py_range.
  repeat vstep. rewrite zrange_nodes.
  eapply wp_run; [apply tvd_loop_start; [exact H|lia]|].
  enter. repeat vstep. fold m.
  rewrite tvd_new_stencil by exact Hm'.
  vdone.
Qed.

(** For every model but the wave model, when [cfg.iMax] is at least 3
    and exceeds the number of nodes of the state vector, [FirstOrderTVD]
    raises [IndexError] at the first node whose right neighbour does not
    exist. *)
Theorem FirstOrderTVD_iMax_beyond cfg Uo C w xs :
  model_is cfg "FO_WAVE" = false ->
  heap w !! Uo = Some (vec xs) ->
  (Z.of_nat (length xs) < iMax cfg)%Z -> (3 <= iMax cfg)%Z ->
  (FirstOrderTVD CalcUi cfg Uo C w).1 =
    Err (IndexError "index out of bounds").
Proof.
  intros Hw H Hn Hm.
  destruct w as [h wn]. cbn [heap warns] in *.
  apply wp_result, wp_start. unfold FirstOrderTVD.
  repeat vstep. rewrite Hw.
  repeat vstep. unfold py_sub, py_range.
  repeat vstep. rewrite zrange_nodes.
  destruct (seq_nodes_beyond (length xs) (Z.to_nat (iMax cfg)))
    as [rest ->]; [lia|lia|].
  rewrite map_app. cbn [map].
  eapply wp_run.
  { erewrite for_app_ok; [|apply tvd_loop_start; [exact H|lia]].
    apply for_cons_err. apply wp_eq. unfold FirstOrderTVD_node. loop_index.
    apply wp_bind. eapply wp_np_getitem_beyond; [heap_lookup|lia|].
    reflexivity. }
  reflexivity.
Qed.

End TVD.

(* ================================================================== *)
(** * 16. The schemes that hand a system to the tridiagonal solver,
      and those that stop before they compute                          *)
(* ================================================================== *)

Section Implicit.

Variable TridiagonalSolver :
  pyobj -> list ndarray -> list ndarray -> list ndarray -> list ndarray ->
  loc -> M pyret.

(** For the wave model, a state vector of at least two nodes and
    [cfg.iMax >= 2], [CrankNicolson] makes two copies of the state and
    its outcome is that of one call of the solver: with [cfg.iMax] as
    the size, the three coefficient lists of [cfg.iMax] entries each
    equal to [0.25*C], [-1.0] and [-(0.25*C)], boundary rows included, a
    right-hand side of as many entries as the state has nodes, whatever
    [cfg.iMax] is, that holds 0 at both ends and
    [-Uo[i] + 0.25*C*(Uo[i+1]-Uo[i-1])] in between, and the second copy
    as the buffer. *)
Theorem CrankNicolson_system cfg Uo C w xs :
  model_is cfg "FO_WAVE" = true ->
  heap w !! Uo = Some (vec xs) ->
  (2 <= iMax cfg)%Z -> 2 <= length xs ->
  let m := Z.to_nat (iMax cfg) in
  CrankNicolson TridiagonalSolver cfg Uo C w =
    TridiagonalSolver (PyInt (iMax cfg))
      (replicate m (Scalar (0.25 * C)))
      (replicate m (Scalar (-1.0)))
      (replicate m (Scalar (- (0.25 * C))))
      (map Scalar (stencil (fun _ => 0%float) (CrankNicolson_rhs C) xs))
      (S (length (heap w)))
      (World (heap w ++ [vec xs; vec xs]) (warns w)).
Proof.
  intros Hm H Hi Hn m. destruct w as [h wn]. cbn [heap warns] in *.
  apply wp_eq, wp_start. unfold CrankNicolson.
  repeat vstep. rewrite Hm. unfold py_range.
  repeat vstep. rewrite !map_const_zrange.
  repeat vstep.
  rewrite rows_of_vec, list_setslice_replicate by lia.
  rewrite map_Scalar_ends.
  rewrite (stencil_fixed_ends 0 (CrankNicolson_rhs C) xs)
    by (auto; nth_facts; reflexivity).
  rewrite Nat.add_1_r. unfold wp.
  destruct (TridiagonalSolver _ _ _ _ _ _ _); reflexivity.
Qed.

(** [BeamAndWarming] never reaches the solver.  For the inviscid Burgers
    model it stops on [range(iMax)] with [iMax] bound to the shape tuple;
    for every model that is neither the wave nor the inviscid Burgers
    model, the viscous one included, it returns a new array equal to the
    input. *)
Theorem BeamAndWarming_outcomes cfg Uo C w a :
  heap w !! Uo = Some a -> length (shape a) <> 2 ->
  (upper (Model cfg) = "INV_BURGERS"%string ->
   (BeamAndWarming TridiagonalSolver cfg Uo C w).1 =
     Err (TypeError msg_tuple_as_integer)) /\
  (model_is cfg "FO_WAVE" = false -> model_is cfg "INV_BURGERS" = false ->
   BeamAndWarming TridiagonalSolver cfg Uo C w =
     (Ok (RArray (length (heap w))), World (heap w ++ [a]) (warns w))).
Proof.
  intros H Hd. split.
  - intros Hm. apply wp_result. unfold BeamAndWarming. repeat estep.
    reflexivity.
  - intros Hw Hi. apply wp_eq. unfold BeamAndWarming. repeat estep.
    reflexivity.
Qed.

(** [EulersBTCS] never reaches the solver either.  On a state vector,
    the wave model and the viscous Burgers model both stop on
    [range(iMax)] with [iMax] bound to the shape tuple (the viscous one
    after it has computed the face speeds); a model that is none of the
    three the function tests for gets a new array equal to the input. *)
Theorem EulersBTCS_outcomes cfg Uo C d w xs :
  heap w !! Uo = Some (vec xs) ->
  (upper (Model cfg) = "FO_WAVE"%string \/
   upper (Model cfg) = "VISC_BURGERS"%string ->
   (EulersBTCS TridiagonalSolver cfg Uo C d w).1 =
     Err (TypeError msg_tuple_as_integer)) /\
  (model_is cfg "FO_WAVE" = false -> model_is cfg "INV_BURGERS" = false ->
   model_is cfg "VISC_BURGERS" = false ->
   EulersBTCS TridiagonalSolver cfg Uo C d w =
     (Ok (RArray (length (heap w))), World (heap w ++ [vec xs]) (warns w))).
Proof.
  intros H. pose proof (length_shape_vec xs) as Hd. split.
  - intros [Hm|Hm]; apply wp_result.
    + unfold EulersBTCS. repeat estep. reflexivity.
    + destruct w as [h wn]. cbn [heap warns] in *. apply wp_start.
      unfold EulersBTCS. repeat vstep.
      rewrite !(model_is_eq _ _ _ Hm). eval_eqb.
      repeat vstep.
      vsetmid (@id float) face_speed xs.
      unfold py_range. repeat vstep. reflexivity.
  - intros Hw Hi Hv. apply wp_eq. unfold EulersBTCS. repeat estep.
    reflexivity.
Qed.

End Implicit.

(** [MacCormack] computes for none of the three models it has a branch
    for.  On a state that passes the dimension guard, the wave and the
    inviscid Burgers model stop on [iMax-1] with [iMax] bound to the
    shape tuple, and the viscous Burgers model stops on the unbound name
    [A]. *)
Theorem MacCormack_outcomes cfg Uo C d w a :
  heap w !! Uo = Some a -> length (shape a) <> 2 ->
  (upper (Model cfg) = "FO_WAVE"%string \/
   upper (Model cfg) = "INV_BURGERS"%string ->
   (MacCormack cfg Uo C d w).1 = Err (TypeError msg_tuple_minus_int)) /\
  (upper (Model cfg) = "VISC_BURGERS"%string ->
   (MacCormack cfg Uo C d w).1 = Err (NameError "A")).
Proof.
  intros H Hd. split.
  - intros [Hm|Hm]; apply wp_result; unfold MacCormack; repeat estep;
      reflexivity.
  - intros Hm. apply wp_result. unfold MacCormack. repeat estep. reflexivity.
Qed.

Section Collaborators.

Variable CalcUi : ndarray -> ndarray -> ndarray.
Variable TridiagonalSolver :
  pyobj -> list ndarray -> list ndarray -> list ndarray -> list ndarray ->
  loc -> M pyret.
Variable TVDLimiterFunctionOptions : list string.
Variable CalculateTVD :
  Z -> loc -> ndarray -> float -> float -> string -> string ->
  M (ndarray * ndarray).

(** For every model but the wave model, on a state that passes the
    dimension guard, [SecondOrderTVD] tests the limiter function before
    anything is computed: a name that is not among the options raises
    the exception that lists the options, and a name that is among them
    lets the call go on to [iMax-2], where it stops with [iMax] bound to
    the shape tuple.  [CalculateTVD] is never called. *)
Theorem SecondOrderTVD_outcomes cfg Uo C lf lim eps w a :
  heap w !! Uo = Some a -> length (shape a) <> 2 ->
  model_is cfg "FO_WAVE" = false ->
  (SecondOrderTVD TVDLimiterFunctionOptions CalculateTVD cfg Uo C lf lim
     eps w).1 =
  if existsb (String.eqb lf) TVDLimiterFunctionOptions
  then Err (TypeError msg_tuple_minus_int)
  else Err (Exception (msg_limiter TVDLimiterFunctionOptions)).
Proof.
  intros H Hd Hw. apply wp_result. unfold SecondOrderTVD.
  repeat estep.
  destruct (existsb (String.eqb lf) TVDLimiterFunctionOptions);
    repeat estep; reflexivity.
Qed.

(** The array a scheme returns is never one of the arrays of the call:
    it is an array that did not exist when the scheme was called, so it
    is no alias of the state passed in.  The tridiagonal solver is
    assumed to write to no array but its buffer and to return its buffer
    or a new array. *)
Theorem returned_array_is_new s cfg x w U w' :
  solver_frame TridiagonalSolver -> solver_keeps_ends TridiagonalSolver ->
  run CalcUi TridiagonalSolver TVDLimiterFunctionOptions CalculateTVD
    s cfg x w = (Ok (RArray U), w') ->
  heap w !! U = None /\ is_Some (heap w' !! U) /\ U <> Uo x.
Proof.
  intros Hf Hk Hrun.
  destruct (heap w !! Uo x) as [a|] eqn:HUo.
  - pose proof (run_kept CalcUi TridiagonalSolver TVDLimiterFunctionOptions
                  CalculateTVD s cfg x (heap w) a w Hf Hk HUo
                  (tracked_start w a)) as HK.
    unfold wp in HK. rewrite Hrun in HK. destruct HK as [_ HK].
    destruct (HK U eq_refl) as (Hge&u&Hu&_).
    apply lookup_lt_Some in HUo. cbn [snd] in Hu.
    repeat split.
    + apply lookup_ge_None_2. exact Hge.
    + exists u. exact Hu.
    + lia.
  - rewrite (run_dangling CalcUi TridiagonalSolver TVDLimiterFunctionOptions
               CalculateTVD s cfg x w HUo) in Hrun. discriminate.
Qed.

(** Every scheme compares the model name after [upper()], and reads
    nothing else of the name: two configurations whose model names are
    equal up to the case of their letters, with the same speed and the
    same [iMax], give the same run, on every store. *)
Theorem model_name_in_any_case s cfg cfg' x :
  upper (Model cfg) = upper (Model cfg') ->
  conv cfg = conv cfg' -> iMax cfg = iMax cfg' ->
  run CalcUi TridiagonalSolver TVDLimiterFunctionOptions CalculateTVD
    s cfg x =
  run CalcUi TridiagonalSolver TVDLimiterFunctionOptions CalculateTVD
    s cfg' x.
Proof.
  destruct cfg as [m c i], cfg' as [m' c' i']. cbn [Model conv iMax].
  intros Hm -> ->.
  destruct s; cbn [run];
    unfold ExplicitFirstUpwind, Lax, MidpointLeapfrog, LaxWendroff,
      LaxWendroffMultiStep, MacCormack, FourthOrderRungeKutta,
      ModifiedRungeKutta, EulersBTCS, CrankNicolson, BeamAndWarming,
      FirstOrderTVD, SecondOrderTVD, FTCS, FTBCS, DuFortFrankel, BTBCS,
      viscous_only, model_is;
    cbn [Model conv iMax]; rewrite Hm; reflexivity.
Qed.

End Collaborators.

(* ================================================================== *)
(** * 17. The schemes on the state [[0, 1, 2, 1, 0]]                   *)
(* ================================================================== *)

(** The theorems of sections 14 to 16 at Courant number 0.5 (and
    diffusion number 0.125), with the values they give. *)

Lemma ExplicitFirstUpwind_nodewise_witness :
  ExplicitFirstUpwind cfg_inviscid 0 0.5 world_01210 =
    (Ok (RArray 1),
     World [state_01210; vec [0; 0.75; 1.25; 1.75; 0]%float] []).
Proof.
  exact (ExplicitFirstUpwind_nodewise cfg_inviscid 0 0.5%float world_01210
           [0; 1; 2; 1; 0]%float eq_refl).
Defined.

Lemma Lax_nodewise_witness :
  Lax cfg_wave 0 0.5 world_01210 =
    (Ok (RArray 1),
     World [state_01210; vec [0; 0.5; 1; 1.5; 0]%float] []).
Proof.
  exact (Lax_nodewise cfg_wave 0 0.5%float world_01210
           [0; 1; 2; 1; 0]%float eq_refl).
Defined.

Lemma LaxWendroff_nodewise_witness :
  LaxWendroff cfg_wave 0 0.5 world_01210 =
    (Ok (RArray 1),
     World [state_01210; vec [0; 0.5; 1.75; 1.5; 0]%float] []).
Proof.
  exact (LaxWendroff_nodewise cfg_wave 0 0.5%float world_01210
           [0; 1; 2; 1; 0]%float eq_refl).
Defined.

Lemma FourthOrderRungeKutta_nodewise_witness :
  FourthOrderRungeKutta cfg_wave 0 0.5 world_01210 =
    (Ok (RArray 1),
     World [state_01210;
            vec (rk4_final id 0.5 [0; 1; 2; 1; 0]%float
                   [0; 0.75; 2; 1.25; 0]%float
                   [0; 0.75; 1.9375; 1.25; 0]%float
                   [0; 0.515625; 1.875; 1.484375; 0]%float);
            vec [0; 0.75; 2; 1.25; 0]%float;
            vec [0; 0.75; 1.9375; 1.25; 0]%float;
            vec [0; 0.515625; 1.875; 1.484375; 0]%float] []).
Proof.
  exact (FourthOrderRungeKutta_nodewise cfg_wave 0 0.5%float world_01210
           [0; 1; 2; 1; 0]%float eq_refl eq_refl).
Defined.

Lemma ModifiedRungeKutta_nodewise_witness :
  ModifiedRungeKutta cfg_viscous 0 0.5 0.125 world_01210 =
    (Ok (RArray 1),
     World [state_01210;
            vec (ModifiedRungeKutta_state cfg_viscous 0.5 0.125
                   [0; 1; 2; 1; 0]%float)] []).
Proof.
  exact (ModifiedRungeKutta_nodewise cfg_viscous 0 0.5%float 0.125%float
           world_01210 [0; 1; 2; 1; 0]%float eq_refl).
Defined.



Lemma short_state_witness :
  exists w',
    run_with_thomas SLax cfg_wave call_args
      (World [vec [1; 2]%float] []) = (Ok (RArray 1), w') /\
    heap w' !! 1 = Some (vec [1; 2]%float) /\
    warns w' = [].
Proof.
  apply (short_state_unchanged CalcUi_difference ThomasSolver
           no_limiter_options CalculateTVD_zero SLax cfg_wave call_args
           (World [vec [1; 2]%float] []) [1; 2]%float).
  - right. left. reflexivity.
  - simpl. intros [].
  - reflexivity.
  - simpl. lia.
Defined.

(** With [cfg.iMax = 5] the loops visit the nodes 1, 2 and 3; with
    [cfg.iMax = 7] they ask for a node 5. *)
Lemma LaxWendroffMultiStep_nodewise_witness :
  LaxWendroffMultiStep cfg_wave 0 0.5 world_01210 =
    (Ok (RArray 1),
     World [state_01210; vec [0; 0.375; 1.75; 1.5; 0]%float;
            vec [0; 1.25; 1.75; 0.75; 0]%float] []).
Proof.
  apply (LaxWendroffMultiStep_nodewise cfg_wave 0 0.5%float world_01210
           [0; 1; 2; 1; 0]%float).
  - reflexivity.
  - reflexivity.
  - simpl. lia.
Defined.

Lemma LaxWendroffMultiStep_iMax_beyond_witness :
  (LaxWendroffMultiStep {| Model := "FO_WAVE"; conv := 1; iMax := 7 |}
     0 0.5 world_01210).1 = Err (IndexError "index out of bounds").
Proof.
  apply (LaxWendroffMultiStep_iMax_beyond
           {| Model := "FO_WAVE"; conv := 1; iMax := 7 |} 0 0.5%float
           world_01210 [0; 1; 2; 1; 0]%float).
  - reflexivity.
  - reflexivity.
  - simpl. lia.
  - simpl. lia.
Defined.

Lemma FirstOrderTVD_nodewise_witness :
  FirstOrderTVD CalcUi_difference cfg_inviscid 0 0.5
    (World [state_01120] []) =
    (Ok (RArray 1),
     World [state_01120; vec [0; 0.75; 1; 1.25; 0]%float] []).
Proof.
  apply (FirstOrderTVD_nodewise CalcUi_difference PrimFloat.sub
           (fun a b => eq_refl) cfg_inviscid 0 0.5%float
           (World [state_01120] []) [0; 1; 1; 2; 0]%float).
  - reflexivity.
  - reflexivity.
  - simpl. lia.
Defined.

Lemma FirstOrderTVD_iMax_beyond_witness :
  (FirstOrderTVD CalcUi_difference
     {| Model := "INV_BURGERS"; conv := 1; iMax := 7 |} 0 0.5
     (World [state_01120] [])).1 = Err (IndexError "index out of bounds").
Proof.
  apply (FirstOrderTVD_iMax_beyond CalcUi_difference PrimFloat.sub
           (fun a b => eq_refl)
           {| Model := "INV_BURGERS"; conv := 1; iMax := 7 |} 0 0.5%float
           (World [state_01120] []) [0; 1; 1; 2; 0]%float).
  - reflexivity.
  - reflexivity.
  - simpl. lia.
  - simpl. lia.
Defined.

Lemma CrankNicolson_system_witness :
  CrankNicolson ThomasSolver cfg_wave 0 0.5 world_01210 =
    ThomasSolver (PyInt 5)
      (replicate 5 (Scalar 0.125)) (replicate 5 (Scalar (-1)))
      (replicate 5 (Scalar (-0.125)))
      (map Scalar [0; -0.75; -2; -1.25; 0]%float) 2
      (World [state_01210; state_01210; state_01210] []).
Proof.
  apply (CrankNicolson_system ThomasSolver cfg_wave 0 0.5%float world_01210
           [0; 1; 2; 1; 0]%float).
  - reflexivity.
  - reflexivity.
  - simpl. lia.
  - simpl. lia.
Defined.

Lemma BeamAndWarming_outcomes_witness :
  BeamAndWarming ThomasSolver cfg_viscous 0 0.5 world_01210 =
    (Ok (RArray 1), World [state_01210; state_01210] []).
Proof.
  refine (proj2 (BeamAndWarming_outcomes ThomasSolver cfg_viscous 0 0.5%float
                   world_01210 state_01210 eq_refl _) eq_refl eq_refl).
  simpl. lia.
Defined.

Lemma EulersBTCS_outcomes_witness :
  (EulersBTCS ThomasSolver cfg_viscous 0 0.5 0.125 world_01210).1 =
    Err (TypeError msg_tuple_as_integer).
Proof.
  exact (proj1 (EulersBTCS_outcomes ThomasSolver cfg_viscous 0 0.5%float
                  0.125%float world_01210 [0; 1; 2; 1; 0]%float eq_refl)
           (or_intror eq_refl)).
Defined.

Lemma MacCormack_outcomes_witness :
  (MacCormack cfg_wave 0 0.5 0.125 world_01210).1 =
    Err (TypeError msg_tuple_minus_int).
Proof.
  refine (proj1 (MacCormack_outcomes cfg_wave 0 0.5%float 0.125%float
                   world_01210 state_01210 eq_refl _) (or_introl eq_refl)).
  simpl. lia.
Defined.

Lemma SecondOrderTVD_outcomes_witness :
  (SecondOrderTVD ["minmod"; "vanleer"]%string CalculateTVD_zero cfg_inviscid
     0 0.5 "minmod" "G" 0.125 world_01210).1 =
    Err (TypeError msg_tuple_minus_int).
Proof.
  refine (SecondOrderTVD_outcomes ["minmod"; "vanleer"]%string
            CalculateTVD_zero cfg_inviscid 0 0.5%float "minmod"%string
            "G"%string 0.125%float world_01210 state_01210 eq_refl _ eq_refl).
  simpl. lia.
Defined.

Lemma returned_array_witness :
  heap world_01210 !! 2 = None /\
  is_Some (heap (run_with_thomas SCrankNicolson cfg_wave call_args
                   world_01210).2 !! 2) /\
  2 <> Uo call_args.
Proof.
  apply (returned_array_is_new CalcUi_difference ThomasSolver
           no_limiter_options CalculateTVD_zero SCrankNicolson cfg_wave
           call_args world_01210 2 _ ThomasSolver_frame
           ThomasSolver_keeps_ends).
  vm_compute. reflexivity.
Defined.

Lemma model_name_witness :
  run_with_thomas SLax {| Model := "fo_Wave"; conv := 1; iMax := 5 |}
    call_args =
  run_with_thomas SLax cfg_wave call_args.
Proof.
  apply (model_name_in_any_case CalcUi_difference ThomasSolver
           no_limiter_options CalculateTVD_zero SLax
           {| Model := "fo_Wave"; conv := 1; iMax := 5 |} cfg_wave
           call_args); reflexivity.
Defined.
